(** * A persistent ledger over an embedded key-value store

    Shallow embedding of [blockchain.go]: the ledger ([Blockchain]), its
    backward cursor ([BlockchainIterator]) and the unspent-output resolver
    ([FindUnspendTransaction], [FindUTXO]).

    Go byte slices are modelled as strings of 8-bit characters; the nil
    slice and the empty slice are both the empty string, which is all the
    program can observe of them ([len(x) == 0], use as a map key after
    [string(x)], use as a store key). *)

From Stdlib Require Import ZArith List Bool Ascii String.
From stdpp Require Import gmap strings list fin_maps.

Open Scope string_scope.
Open Scope list_scope.

Abbreviation bytes := string.

(** ** Collaborators

    The declarations of [TXoutput], [TXinput], [Transaction] and [Block],
    their methods, the block factory and the block codec live in files of
    the repository other than [blockchain.go].  They are taken as
    parameters: the transaction types with the two fields and the two
    predicates [blockchain.go] uses, the records with the fields it reads. *)

Class TxScheme := {
  TXoutput : Type;
  TXinput : Type;
  TXid : TXinput -> bytes;
  Voutindex : TXinput -> Z;
  CanBeUnlockedWith : TXoutput -> string -> bool;
  CanUnlockOutputWith : TXinput -> string -> bool
}.

Record Transaction `{TxScheme} := {
  ID : bytes;
  In : list TXinput;
  Out : list TXoutput
}.

Record Block `{TxScheme} := {
  Hash : bytes;
  PrevBlockHash : bytes;
  Transactions : list Transaction
}.

Class BlockScheme `{TxScheme} := {
  IsCoinbase : Transaction -> bool;
  NewBlock : bytes -> list Transaction -> Block;
  GenesisBlock : Block;
  Serialize : Block -> bytes;
  (** [None]: decoding does not produce a block (the caller cannot go on). *)
  Deserialize : bytes -> option Block
}.

(** ** The store (boltdb)

    One bucket, [BLOCKBUCKET]; a database is [None] while the bucket has
    not been created.  The library's contract, as far as the program
    depends on it:
    - [Get] returns nil for an absent key;
    - [Put] refuses an empty key, a key longer than [MaxKeySize] and a
      value longer than [MaxValueSize];
    - [View] and [Update] run the closure inside a transaction; [Update]
      commits when the closure returns nil and rolls back otherwise, also
      when the closure panics; either can fail before the closure runs, and
      [Update] can fail at commit, leaving the store as it was. *)

Definition BLOCKBUCKET : string := "blocks".
Definition latest : bytes := "latest".

Abbreviation Bucket := (gmap string string).
Abbreviation DB := (option (gmap string string)).

Definition MaxKeySize : Z := 32768.
Definition MaxValueSize : Z := 2147483646.

Definition Get (bucket : Bucket) (key : bytes) : bytes :=
  default "" (bucket !! key).

Definition Put (bucket : Bucket) (key value : bytes) : option Bucket :=
  if decide (key = "") then None
  else if (MaxKeySize <? Z.of_nat (String.length key))%Z then None
  else if (MaxValueSize <? Z.of_nat (String.length value))%Z then None
  else Some (<[key := value]> bucket).

(** What the environment decides for one call: whether opening the file
    fails, whether a read transaction returns an error, whether a write
    transaction fails to begin, whether its commit fails. *)
Record Env := {
  open_err : bool;
  view_err : bool;
  begin_err : bool;
  commit_err : bool
}.

Definition healthy : Env :=
  {| open_err := false; view_err := false; begin_err := false; commit_err := false |}.

(** Result of running a closure inside a transaction, with the variables
    [S] it captured from its caller: it panics, or returns the bucket as
    the transaction sees it together with its error value. *)
Inductive Closure (S : Type) :=
| CPanic (s : S)
| CReturn (tx : DB) (s : S) (err : bool).
Arguments CPanic {S} s.
Arguments CReturn {S} tx s err.

(** Result of [db.Update(fn)]: the panic propagates (after the deferred
    rollback), or the call returns an error value. *)
Inductive TxResult (S : Type) :=
| TxPanic (db : DB) (s : S)
| TxReturn (db : DB) (s : S) (err : bool).
Arguments TxPanic {S} db s.
Arguments TxReturn {S} db s err.

Definition Update {S} (env : Env) (db : DB) (s : S) (fn : DB -> S -> Closure S) : TxResult S :=
  if begin_err env then TxReturn db s true
  else match fn db s with
       | CPanic s' => TxPanic db s'
       | CReturn tx s' true => TxReturn db s' true
       | CReturn tx s' false =>
           if commit_err env then TxReturn db s' true else TxReturn tx s' false
       end.

Definition View {S} (env : Env) (db : DB) (s : S) (fn : DB -> S -> Closure S) : TxResult S :=
  if view_err env then TxReturn db s true
  else match fn db s with
       | CPanic s' => TxPanic db s'
       | CReturn _ s' err => TxReturn db s' err
       end.

(** ** The ledger *)

Inductive Result (A : Type) :=
| Ok (a : A)
| Panic
| OutOfFuel.
Arguments Ok {A} a.
Arguments Panic {A}.
Arguments OutOfFuel {A}.

Record Blockchain := {
  topHash : bytes;
  db : DB
}.

Record BlockchainIterator := {
  currentHash : bytes;
  bit_db : DB
}.

Section Ledger.
Context `{BlockScheme}.

Definition GetTopHash (bc : Blockchain) : bytes := topHash bc.

(** The closure of [CreateBlockchain]; it captures [tophash]. *)
Definition CreateBlockchain_fn (tx : DB) (tophash : bytes) : Closure bytes :=
  match tx with
  | None =>
      let genesisBlock := GenesisBlock in
      match Put ∅ (Hash genesisBlock) (Serialize genesisBlock) with
      | None => CPanic tophash
      | Some bucket =>
          match Put bucket latest (Hash genesisBlock) with
          | None => CPanic tophash
          | Some bucket' => CReturn (Some bucket') (Hash genesisBlock) false
          end
      end
  | Some bucket => CReturn tx (Get bucket latest) false
  end.

(** [disk] is the content of [DBFILE] when the call starts. *)
Definition CreateBlockchain (env : Env) (disk : DB) : Result Blockchain :=
  if open_err env then Panic
  else match Update env disk "" CreateBlockchain_fn with
       | TxPanic _ _ => Panic
       | TxReturn boltDB tophash err =>
           if err then Panic
           else Ok {| topHash := tophash; db := boltDB |}
       end.

(** The read closure of [AddBlock]; it captures [tophash].  A nil bucket
    is dereferenced by [bucket.Get]. *)
Definition AddBlock_read (tx : DB) (tophash : bytes) : Closure bytes :=
  match tx with
  | None => CPanic tophash
  | Some bucket => CReturn tx (Get bucket latest) false
  end.

(** The write closure of [AddBlock]; it captures [bc.topHash]. *)
Definition AddBlock_write (newBlock : Block) (tx : DB) (top : bytes) : Closure bytes :=
  match tx with
  | None => CPanic top
  | Some bucket =>
      match Put bucket (Hash newBlock) (Serialize newBlock) with
      | None => CPanic top
      | Some bucket1 =>
          match Put bucket1 latest (Hash newBlock) with
          | None => CPanic top
          | Some bucket2 => CReturn (Some bucket2) (Hash newBlock) false
          end
      end
  end.

(** [AddBlock] returns its result together with the ledger as the call
    leaves it.  The value of [bc.db.Update] is dropped; the [err] tested
    after it is the one bound by [bc.db.View]. *)
Definition AddBlock (env : Env) (bc : Blockchain) (txs : list Transaction)
  : Result bool * Blockchain :=
  match View env (db bc) "" AddBlock_read with
  | TxPanic _ _ => (Panic, bc)
  | TxReturn _ tophash err =>
      if err then (Panic, bc)
      else
        let newBlock := NewBlock tophash txs in
        match Update env (db bc) (topHash bc) (AddBlock_write newBlock) with
        | TxPanic db' top' => (Panic, {| topHash := top'; db := db' |})
        | TxReturn db' top' _ =>
            let bc' := {| topHash := top'; db := db' |} in
            if err then (Panic, bc') else (Ok true, bc')
        end
  end.

Definition Iterator (bc : Blockchain) : BlockchainIterator :=
  {| currentHash := topHash bc; bit_db := db bc |}.

(** The closure of [Next]; it captures [block] (nil before the call). *)
Definition Next_fn (cur : bytes) (tx : DB) (block : option Block) : Closure (option Block) :=
  match tx with
  | None => CPanic block
  | Some bucket =>
      match Deserialize (Get bucket cur) with
      | None => CPanic block
      | Some b => CReturn tx (Some b) false
      end
  end.

Definition Next (env : Env) (bit : BlockchainIterator) : Result (Block * BlockchainIterator) :=
  match View env (bit_db bit) None (Next_fn (currentHash bit)) with
  | TxPanic _ _ => Panic
  | TxReturn _ block err =>
      if err then Panic
      else match block with
           | None => Panic
           | Some b => Ok (b, {| currentHash := PrevBlockHash b; bit_db := bit_db bit |})
           end
  end.

(** The loop of [IterateBlockchain], from an iterator; the blocks it
    prints, in the order it prints them. *)
Fixpoint IterateBlockchain_loop (fuel : nat) (env : Env) (iterator : BlockchainIterator)
  : Result (list Block) :=
  match fuel with
  | O => OutOfFuel
  | S fuel' =>
      match Next env iterator with
      | Ok (block, iterator') =>
          if decide (String.length (PrevBlockHash block) = 0) then Ok [block]
          else match IterateBlockchain_loop fuel' env iterator' with
               | Ok rest => Ok (block :: rest)
               | Panic => Panic
               | OutOfFuel => OutOfFuel
               end
      | Panic => Panic
      | OutOfFuel => OutOfFuel
      end
  end.

Definition IterateBlockchain (fuel : nat) (env : Env) (bc : Blockchain) : Result (list Block) :=
  IterateBlockchain_loop fuel env (Iterator bc).

End Ledger.

(** ** The unspent-output resolver *)

(** How the variable of a [for ... := range] statement is allocated: one
    variable for the whole statement (Go before 1.22) or a fresh one for
    each iteration (Go 1.22 and later).  [FindUTXO] stores the address of
    that variable, so its result depends on it. *)
Inductive LoopVar := PerLoop | PerIteration.

Section Resolver.
Context `{BlockScheme}.

(** [spendTxos]: transaction ID to the output indexes recorded as spent,
    in the order they were appended.  A key is present exactly when the
    Go map holds a non-nil slice for it. *)
Abbreviation SpendTxos := (gmap string (list Z)).

(** The guard [spendTxos[txID] != nil] and the loop over the recorded
    indexes: [true] when the walk does [continue Outputs]. *)
Definition is_spent (spendTxos : SpendTxos) (txID : string) (outIdx : Z) : bool :=
  match spendTxos !! txID with
  | Some spent => existsb (fun spentOutput => (spentOutput =? outIdx)%Z) spent
  | None => false
  end.

(** The loop labelled [Outputs], from index [outIdx] on. *)
Fixpoint scan_outputs (address : string) (tx : Transaction) (spendTxos : SpendTxos)
    (outIdx : Z) (outs : list TXoutput) (unsepentTXs : list Transaction)
  : list Transaction :=
  match outs with
  | [] => unsepentTXs
  | output :: rest =>
      if is_spent spendTxos (ID tx) outIdx
      then scan_outputs address tx spendTxos (outIdx + 1) rest unsepentTXs
      else if CanBeUnlockedWith output address
      then scan_outputs address tx spendTxos (outIdx + 1) rest (unsepentTXs ++ [tx])
      else scan_outputs address tx spendTxos (outIdx + 1) rest unsepentTXs
  end.

(** The loop over [tx.In]. *)
Fixpoint record_inputs (address : string) (ins : list TXinput) (spendTxos : SpendTxos)
  : SpendTxos :=
  match ins with
  | [] => spendTxos
  | input :: rest =>
      if CanUnlockOutputWith input address
      then
        let inputTxID := TXid input in
        record_inputs address rest
          (<[inputTxID := default [] (spendTxos !! inputTxID) ++ [Voutindex input]]> spendTxos)
      else record_inputs address rest spendTxos
  end.

(** The body of the loop over [block.Transactions]. *)
Definition scan_tx (address : string) (st : list Transaction * SpendTxos) (tx : Transaction)
  : list Transaction * SpendTxos :=
  let unsepentTXs := scan_outputs address tx (snd st) 0 (Out tx) (fst st) in
  let spendTxos :=
    if negb (IsCoinbase tx) then record_inputs address (In tx) (snd st) else snd st in
  (unsepentTXs, spendTxos).

Definition scan_block (address : string) (st : list Transaction * SpendTxos) (block : Block)
  : list Transaction * SpendTxos :=
  fold_left (scan_tx address) (Transactions block) st.

(** The outer [for] of [FindUnspendTransaction]. *)
Fixpoint FindUnspendTransaction_loop (fuel : nat) (env : Env) (address : string)
    (bcIterator : BlockchainIterator) (st : list Transaction * SpendTxos)
  : Result (list Transaction * SpendTxos) :=
  match fuel with
  | O => OutOfFuel
  | S fuel' =>
      match Next env bcIterator with
      | Ok (block, bcIterator') =>
          let st' := scan_block address st block in
          if decide (String.length (PrevBlockHash block) = 0) then Ok st'
          else FindUnspendTransaction_loop fuel' env address bcIterator' st'
      | Panic => Panic
      | OutOfFuel => OutOfFuel
      end
  end.

Definition FindUnspendTransaction (fuel : nat) (env : Env) (bc : Blockchain) (address : string)
  : Result (list Transaction) :=
  match FindUnspendTransaction_loop fuel env address (Iterator bc) ([], ∅) with
  | Ok st => Ok (fst st)
  | Panic => Panic
  | OutOfFuel => OutOfFuel
  end.

(** The result of [FindUTXO]: a slice of pointers, and the variables
    they point to ([heap !! p] is the variable at address [p]). *)
Record UTXOs := {
  ptrs : list nat;
  heap : list TXoutput
}.

(** One execution of [for _, output := range tx.Out].  [cell] is the
    address of the statement's variable once it has been allocated. *)
Fixpoint range_outputs (sem : LoopVar) (addr : string) (cell : option nat)
    (outs : list TXoutput) (r : UTXOs) : UTXOs :=
  match outs with
  | [] => r
  | o :: rest =>
      let '(p, heap') :=
        match sem, cell with
        | PerLoop, Some p => (p, <[p := o]> (heap r))
        | _, _ => (length (heap r), heap r ++ [o])
        end in
      let ptrs' := if CanBeUnlockedWith o addr then ptrs r ++ [p] else ptrs r in
      range_outputs sem addr (Some p) rest {| ptrs := ptrs'; heap := heap' |}
  end.

Definition collect_outputs (sem : LoopVar) (addr : string) (unspentTxs : list Transaction)
  : UTXOs :=
  fold_left (fun r tx => range_outputs sem addr None (Out tx) r) unspentTxs
    {| ptrs := []; heap := [] |}.

Definition FindUTXO (sem : LoopVar) (fuel : nat) (env : Env) (bc : Blockchain) (addr : string)
  : Result UTXOs :=
  match FindUnspendTransaction fuel env bc addr with
  | Ok unspentTxs => Ok (collect_outputs sem addr unspentTxs)
  | Panic => Panic
  | OutOfFuel => OutOfFuel
  end.

(** What a caller reads through the returned pointers. *)
Definition values (r : UTXOs) : list TXoutput :=
  omap (fun p => heap r !! p) (ptrs r).

End Resolver.

(** ** A concrete instance of the collaborators

    Outputs locked to an address by name, inputs carrying the name that
    unlocks them, a coinbase test on the single input, a block factory that
    derives the hash from the parent hash and the transaction IDs, and a
    codec that writes the block as a string of binary digits. *)
Module Demo.

Record output := { Value : Z; ScriptPubKey : string }.
Record input := { txid : bytes; vout : Z; ScriptSig : string }.

#[global] Instance output_eq_dec : EqDecision output.
Proof. solve_decision. Defined.
#[global] Instance input_eq_dec : EqDecision input.
Proof. solve_decision. Defined.

#[export] Instance scheme : TxScheme := {|
  TXoutput := output;
  TXinput := input;
  TXid := txid;
  Voutindex := vout;
  CanBeUnlockedWith := fun o address => String.eqb (ScriptPubKey o) address;
  CanUnlockOutputWith := fun i address => String.eqb (ScriptSig i) address
|}.

Definition tx_tuple (t : Transaction) : bytes * list input * list output :=
  (ID t, In t, Out t).
Definition tuple_tx (p : bytes * list input * list output) : Transaction :=
  {| ID := p.1.1; In := p.1.2; Out := p.2 |}.
Definition block_tuple (b : Block) : bytes * bytes * list (bytes * list input * list output) :=
  (Hash b, PrevBlockHash b, tx_tuple <$> Transactions b).
Definition tuple_block (p : bytes * bytes * list (bytes * list input * list output)) : Block :=
  {| Hash := p.1.1; PrevBlockHash := p.1.2; Transactions := tuple_tx <$> p.2 |}.

Fixpoint pos_to_bits (p : positive) : string :=
  match p with
  | xH => ""
  | xO q => String "0"%char (pos_to_bits q)
  | xI q => String "1"%char (pos_to_bits q)
  end.

Fixpoint bits_to_pos (s : string) : positive :=
  match s with
  | EmptyString => xH
  | String c s' => if Ascii.eqb c "1"%char then xI (bits_to_pos s') else xO (bits_to_pos s')
  end.

#[global] Instance output_countable : Countable output.
Proof.
  refine (inj_countable' (fun o => (Value o, ScriptPubKey o))
                         (fun p => {| Value := p.1; ScriptPubKey := p.2 |}) _).
  by intros [].
Defined.

#[global] Instance input_countable : Countable input.
Proof.
  refine (inj_countable' (fun i => (txid i, vout i, ScriptSig i))
                         (fun p => {| txid := p.1.1; vout := p.1.2; ScriptSig := p.2 |}) _).
  by intros [].
Defined.

Definition is_coinbase (tx : Transaction) : bool :=
  match In tx with
  | [i] => String.eqb (txid i) "" && (vout i =? -1)%Z
  | _ => false
  end.

Definition new_block (prev : bytes) (txs : list Transaction) : Block :=
  {| Hash := String.append "#" (String.append prev (String.concat "," (ID <$> txs)));
     PrevBlockHash := prev;
     Transactions := txs |}.

Definition coinbase (id : bytes) (to : string) : Transaction :=
  {| ID := id;
     In := [ {| txid := ""; vout := -1; ScriptSig := "reward" |} ];
     Out := [ {| Value := 10; ScriptPubKey := to |} ] |}.

Definition genesis : Block :=
  {| Hash := "genesis"; PrevBlockHash := ""; Transactions := [coinbase "cb0" "alice"] |}.

Definition serialize (b : Block) : bytes := pos_to_bits (encode (block_tuple b)).

Definition deserialize (s : bytes) : option Block :=
  tuple_block <$> decode (bits_to_pos s).

#[export] Instance blocks : BlockScheme := {|
  IsCoinbase := is_coinbase;
  NewBlock := new_block;
  GenesisBlock := genesis;
  Serialize := serialize;
  Deserialize := deserialize
|}.

(** Ledgers to run the program on. *)
Definition ledger_of (r : Result Blockchain) : Blockchain :=
  match r with
  | Ok bc => bc
  | _ => {| topHash := ""; db := None |}
  end.

Definition pay (id from_tx : bytes) (idx : Z) (sender receiver : string) : Transaction :=
  {| ID := id;
     In := [ {| txid := from_tx; vout := idx; ScriptSig := sender |} ];
     Out := [ {| Value := 10; ScriptPubKey := receiver |} ] |}.

(** A reward paid to [receiver] in two outputs. *)
Definition split_reward (id : bytes) (receiver : string) : Transaction :=
  {| ID := id;
     In := [ {| txid := ""; vout := -1; ScriptSig := "reward" |} ];
     Out := [ {| Value := 5; ScriptPubKey := receiver |};
              {| Value := 7; ScriptPubKey := receiver |} ] |}.

(** The bootstrapped ledger: the genesis block pays alice. *)
Definition ledger0 : Blockchain := ledger_of (CreateBlockchain healthy None).

(** Alice's reward spent in favour of bob. *)
Definition ledger_spent : Blockchain :=
  (AddBlock healthy ledger0 [pay "t2" "cb0" 0 "alice" "bob"]).2.

(** Carol receives two outputs in one transaction... *)
Definition ledger_split : Blockchain :=
  (AddBlock healthy ledger0 [split_reward "t1" "carol"]).2.

(** ... and spends the first of them in favour of bob. *)
Definition ledger_split_spent : Blockchain :=
  (AddBlock healthy ledger_split [pay "t3" "t1" 0 "carol" "bob"]).2.

Definition t2 : Transaction := pay "t2" "cb0" 0 "alice" "bob".
Definition t3 : Transaction := pay "t3" "t1" 0 "carol" "bob".
Definition O0 : output := {| Value := 5; ScriptPubKey := "carol" |}.
Definition O1 : output := {| Value := 7; ScriptPubKey := "carol" |}.

(** The bucket of the bootstrapped ledger. *)
Definition bucket0 : gmap string string :=
  <[latest := "genesis"]> (<["genesis" := serialize genesis]> ∅).

(** A ledger on the same store whose in-memory head lags behind. *)
Definition ledger_stale : Blockchain := {| topHash := "stale"; db := Some bucket0 |}.

(** Carol receives one output in transaction t1 and spends it in favour
    of bob in the next transaction of the same block. *)
Definition ledger_same_block : Blockchain :=
  (AddBlock healthy ledger0 [coinbase "t1" "carol"; t3]).2.

(** A block that names itself as its predecessor, and a ledger on it. *)
Definition self_block : Block :=
  {| Hash := "loop"; PrevBlockHash := "loop"; Transactions := [] |}.
Definition bucket_cycle : gmap string string := {[ "loop" := serialize self_block ]}.
Definition ledger_cycle : Blockchain := {| topHash := "loop"; db := Some bucket_cycle |}.

(** An environment in which the write transaction cannot commit. *)
Definition commit_fails : Env :=
  {| open_err := false; view_err := false; begin_err := false; commit_err := true |}.

End Demo.

(** ** Reference notions the properties are stated with *)

Section Reference.
Context `{BlockScheme}.

(** The output indexes of transaction [txID] that the inputs of [tx]
    spend on behalf of [address]: none for a coinbase transaction. *)
Definition spends (address txID : string) (tx : Transaction) : list Z :=
  if IsCoinbase tx then []
  else Voutindex <$>
         (filter (λ i, CanUnlockOutputWith i address ∧ TXid i = txID) (In tx)).

(** The same over the transactions [seen] so far, in walk order. *)
Definition spent_by (address txID : string) (seen : list Transaction) : list Z :=
  concat (spends address txID <$> seen).

(** The outputs, with their positions, that [address] can unlock and
    whose position is not among [spent]. *)
Definition qualifying (address : string) (spent : list Z) (outs : list TXoutput)
  : list (nat * TXoutput) :=
  filter (λ p, (Z.of_nat (fst p) ∉ spent) ∧ CanBeUnlockedWith (snd p) address)
         (imap pair outs).

(** The walk as the specification describes it: a transaction is listed
    once for each output that qualifies against the inputs of the
    transactions met before it. *)
Fixpoint unspent_walk (address : string) (seen txs : list Transaction) : list Transaction :=
  match txs with
  | [] => []
  | tx :: rest =>
      replicate (length (qualifying address (spent_by address (ID tx) seen) (Out tx))) tx
      ++ unspent_walk address (seen ++ [tx]) rest
  end.

(** The outputs of [tx] that [addr] can unlock, spent or not. *)
Definition accepted_outputs (addr : string) (tx : Transaction) : list TXoutput :=
  filter (λ o, CanBeUnlockedWith o addr) (Out tx).

(** As many copies of the last output of [tx] as [addr] can unlock
    outputs of [tx]. *)
Definition aliased_outputs (addr : string) (tx : Transaction) : list TXoutput :=
  match last (Out tx) with
  | Some o => replicate (length (accepted_outputs addr tx)) o
  | None => []
  end.

(** Every pointer of [r] is the address of a variable of [r]. *)
Definition pointers_valid (r : UTXOs) : Prop :=
  Forall (λ p, (p < length (heap r))%nat) (ptrs r).

(** [k] calls of [Next] in a row, keeping the iterator only. *)
Fixpoint advance (k : nat) (env : Env) (bit : BlockchainIterator) : Result BlockchainIterator :=
  match k with
  | O => Ok bit
  | S k' =>
      match Next env bit with
      | Ok (_, bit') => advance k' env bit'
      | Panic => Panic
      | OutOfFuel => OutOfFuel
      end
  end.

(** A transaction none of whose outputs either address can unlock. *)
Definition bystander (a b : string) (tx : Transaction) : Prop :=
  ∀ o, o ∈ Out tx → CanBeUnlockedWith o a = false ∧ CanBeUnlockedWith o b = false.

(** The store accepts the block's hash as a key and its encoding as a
    value. *)
Definition storable (b : Block) : Prop :=
  Hash b ≠ "" ∧
  (Z.of_nat (String.length (Hash b)) <= MaxKeySize)%Z ∧
  (Z.of_nat (String.length (Serialize b)) <= MaxValueSize)%Z.

(** [blocks] is stored in [bucket] as a chain from hash [h] down to a
    block with an empty [PrevBlockHash]; no block sits under the empty
    key or under the reserved key. *)
Fixpoint stored_chain (bucket : Bucket) (h : bytes) (blocks : list Block) : Prop :=
  match blocks with
  | [] => False
  | b :: rest =>
      Hash b = h ∧ h ≠ "" ∧ h ≠ latest ∧ bucket !! h = Some (Serialize b) ∧
      match rest with
      | [] => PrevBlockHash b = ""
      | _ :: _ => PrevBlockHash b ≠ "" ∧ stored_chain bucket (PrevBlockHash b) rest
      end
  end.

(** The ledger's two copies of the head agree, the block [head] is
    stored under it, and the reserved key is not a block hash. *)
Definition head_stored (bc : Blockchain) (bucket : Bucket) (head : Block) : Prop :=
  db bc = Some bucket ∧
  bucket !! latest = Some (topHash bc) ∧
  bucket !! topHash bc = Some (Serialize head) ∧
  topHash bc ≠ latest.

(** An [AddBlock] call whose write transaction committed a block under
    a hash the store did not hold yet. *)
Definition appended (env : Env) (bc : Blockchain) (txs : list Transaction)
    (bc' : Blockchain) : Prop :=
  AddBlock env bc txs = (Ok true, bc') ∧
  begin_err env = false ∧ commit_err env = false ∧
  ∃ bucket, db bc = Some bucket ∧ bucket !! Hash (NewBlock (Get bucket latest) txs) = None.

(** [Built n bc blocks]: the ledger [bc] results from bootstrapping an
    empty store and [n] such calls; [blocks] are the blocks created,
    newest first. *)
Inductive Built : nat → Blockchain → list Block → Prop :=
| Built_genesis env bc :
    CreateBlockchain env None = Ok bc →
    Hash GenesisBlock ≠ latest →
    Built 0 bc [GenesisBlock]
| Built_append env n bc blocks txs bc' :
    Built n bc blocks →
    appended env bc txs bc' →
    Built (S n) bc' (NewBlock (topHash bc) txs :: blocks).

End Reference.

(** Modelled from the spec: the block factory and the block codec are not
    in [blockchain.go].  The specification gives their contract: the
    factory returns a block on the parent hash it is given, the genesis
    block is the one with an empty [PrevBlockHash], and the codec is total
    and lossless. *)
Class BlockLaws `{BlockScheme} : Prop := {
  NewBlock_prev : ∀ prev txs, PrevBlockHash (NewBlock prev txs) = prev;
  GenesisBlock_prev : PrevBlockHash GenesisBlock = "";
  codec_lossless : ∀ b, Deserialize (Serialize b) = Some b
}.

(** * Properties *)

(** ** The spent-output map and the scan of one transaction *)

Section ResolverFacts.
Context `{BlockScheme}.

Lemma existsb_eqb_elem_of (k : Z) (l : list Z) :
  existsb (fun x => (x =? k)%Z) l = bool_decide (k ∈ l).
Proof.
  induction l as [|x l IH]; simpl.
  - reflexivity.
  - rewrite IH. destruct (Z.eqb_spec x k) as [->|Hne]; simpl.
    + symmetry. apply bool_decide_eq_true. by left.
    + apply bool_decide_ext. rewrite elem_of_cons.
      split; [by right | by intros [->|?]].
Qed.

Lemma is_spent_spec (s : gmap string (list Z)) (id : string) (k : Z) :
  is_spent s id k = bool_decide (k ∈ default [] (s !! id)).
Proof.
  unfold is_spent. destruct (s !! id) as [l|]; simpl.
  - apply existsb_eqb_elem_of.
  - reflexivity.
Qed.

Lemma record_inputs_lookup address ins (s : gmap string (list Z)) (id : string) :
  default [] (record_inputs address ins s !! id)
  = default [] (s !! id)
    ++ (Voutindex <$> filter (λ i, CanUnlockOutputWith i address ∧ TXid i = id) ins).
Proof.
  revert s. induction ins as [|i ins IH]; intros s; simpl.
  - by rewrite app_nil_r.
  - rewrite filter_cons. destruct (CanUnlockOutputWith i address) eqn:Hacc.
    + rewrite IH, lookup_insert. destruct (decide (TXid i = id)) as [->|Hne].
      * rewrite decide_True by done. simpl. by rewrite <- app_assoc.
      * rewrite decide_False by (by intros [_ ?]). done.
    + rewrite IH. rewrite decide_False; [done|].
      intros [Hc _]. by apply Is_true_true in Hc.
Qed.

(** The map after one transaction: what it held, then what the
    transaction's own inputs spend. *)
Lemma scan_tx_spent address st tx (id : string) :
  default [] ((scan_tx address st tx).2 !! id)
  = default [] (st.2 !! id) ++ spends address id tx.
Proof.
  unfold scan_tx, spends; simpl. destruct (IsCoinbase tx); simpl.
  - by rewrite app_nil_r.
  - apply record_inputs_lookup.
Qed.

Lemma scan_txs_spent address txs st (id : string) :
  default [] ((fold_left (scan_tx address) txs st).2 !! id)
  = default [] (st.2 !! id) ++ spent_by address id txs.
Proof.
  revert st. induction txs as [|tx txs IH]; intros st; simpl.
  - by rewrite app_nil_r.
  - rewrite IH, scan_tx_spent. unfold spent_by; simpl. by rewrite <- app_assoc.
Qed.

Lemma spent_by_app address id l1 l2 :
  spent_by address id (l1 ++ l2) = spent_by address id l1 ++ spent_by address id l2.
Proof. unfold spent_by. by rewrite fmap_app, concat_app. Qed.

Lemma scan_outputs_from address tx (s : gmap string (list Z)) (k : nat) outs u :
  scan_outputs address tx s (Z.of_nat k) outs u
  = u ++ replicate
           (length (filter (λ p, (Z.of_nat (fst p) ∉ default [] (s !! ID tx))
                                 ∧ CanBeUnlockedWith (snd p) address)
                           (imap (λ i o, (k + i, o)) outs))) tx.
Proof.
  revert k u. induction outs as [|o outs IH]; intros k u; simpl.
  - by rewrite app_nil_r.
  - replace (Z.of_nat k + 1)%Z with (Z.of_nat (S k)) by lia.
    rewrite !IH, is_spent_spec, filter_cons; simpl.
    rewrite (imap_ext ((λ i o, (k + i, o)) ∘ S) (λ i o, (S k + i, o)))
      by (intros; simpl; f_equal; lia).
    replace (k + 0) with k by lia.
    destruct (decide (Z.of_nat k ∈ default [] (s !! ID tx))) as [Hin|Hnin].
    + rewrite bool_decide_eq_true_2 by done.
      rewrite decide_False by (intros [Hn _]; by apply Hn). done.
    + rewrite bool_decide_eq_false_2 by done.
      destruct (CanBeUnlockedWith o address) eqn:Hacc.
      * rewrite decide_True by done. simpl. by rewrite <- app_assoc.
      * rewrite decide_False by (by intros [_ ?]). done.
Qed.

(** The scan of a transaction's outputs lists it once for each output
    that qualifies against the map as it stands. *)
Lemma scan_outputs_spec address tx (s : gmap string (list Z)) u :
  scan_outputs address tx s 0 (Out tx) u
  = u ++ replicate (length (qualifying address (default [] (s !! ID tx)) (Out tx))) tx.
Proof. apply (scan_outputs_from address tx s 0). Qed.

(** The walk over a list of transactions, from a state whose map holds
    what the transactions [seen] spend. *)
Lemma scan_txs_walk address txs seen st :
  (∀ id, default [] (st.2 !! id) = spent_by address id seen) →
  (fold_left (scan_tx address) txs st).1 = st.1 ++ unspent_walk address seen txs.
Proof.
  revert seen st. induction txs as [|tx txs IH]; intros seen st Hst; simpl.
  - by rewrite app_nil_r.
  - rewrite (IH (seen ++ [tx])).
    + unfold scan_tx at 1; simpl. rewrite scan_outputs_spec, Hst. by rewrite <- app_assoc.
    + intros id. rewrite scan_tx_spent, Hst, spent_by_app.
      unfold spent_by at 3; simpl. by rewrite app_nil_r.
Qed.

Lemma scan_blocks_flat address blocks st :
  fold_left (scan_block address) blocks st
  = fold_left (scan_tx address) (concat (Transactions <$> blocks)) st.
Proof.
  revert st. induction blocks as [|b blocks IH]; intros st; simpl; [done|].
  by rewrite fold_left_app, IH.
Qed.

(** The resolver's loop and the printing loop make the same calls of
    [Next]: where one ends, the other ends with the scan of the blocks
    the first one lists. *)
Lemma FindUnspendTransaction_loop_blocks fuel env address bit st blocks :
  IterateBlockchain_loop fuel env bit = Ok blocks →
  FindUnspendTransaction_loop fuel env address bit st
  = Ok (fold_left (scan_block address) blocks st).
Proof.
  revert bit st blocks. induction fuel as [|fuel IH]; intros bit st blocks; simpl; [done|].
  destruct (Next env bit) as [[b bit']| |]; try done.
  case_decide.
  - by intros [= <-].
  - destruct (IterateBlockchain_loop fuel env bit') as [rest| |] eqn:Hrest; try done.
    intros [= <-]. simpl. by apply IH.
Qed.

Lemma FindUnspendTransaction_walk fuel env bc address blocks :
  IterateBlockchain fuel env bc = Ok blocks →
  FindUnspendTransaction fuel env bc address
  = Ok (unspent_walk address [] (concat (Transactions <$> blocks))).
Proof.
  intros Hwalk. unfold FindUnspendTransaction.
  rewrite (FindUnspendTransaction_loop_blocks _ _ _ _ _ _ Hwalk).
  rewrite scan_blocks_flat, (scan_txs_walk _ _ []); done.
Qed.

End ResolverFacts.

(** ** The walk of the resolver *)

Section ResolverClaims.
Context `{BlockScheme}.

Lemma elem_of_qualifying address (spent : list Z) outs (k : nat) o :
  (k, o) ∈ qualifying address spent outs
  ↔ outs !! k = Some o ∧ (Z.of_nat k ∉ spent) ∧ CanBeUnlockedWith o address = true.
Proof.
  unfold qualifying. rewrite list_elem_of_filter, elem_of_lookup_imap; simpl. split.
  - intros [[Hk Hacc] (i & y & [= -> ->] & Hy)]. by apply Is_true_true in Hacc.
  - intros (Hk & Hs & Hacc). split; [split; [done|by apply Is_true_true]|by exists k, o].
Qed.

Lemma filter_imap_rejected address (spent : list Z) (f : nat → TXoutput → nat * TXoutput) outs :
  (∀ i o, snd (f i o) = o) →
  (∀ o, o ∈ outs → CanBeUnlockedWith o address = false) →
  filter (λ p, (Z.of_nat (fst p) ∉ spent) ∧ CanBeUnlockedWith (snd p) address) (imap f outs) = [].
Proof.
  intros Hf. revert f Hf. induction outs as [|o outs IH]; intros f Hf Hrej; simpl; [done|].
  rewrite filter_cons, decide_False.
  - apply IH; [by intros; apply Hf|]. intros o' Ho'. apply Hrej. by right.
  - rewrite Hf, (Hrej o) by (by left). by intros [_ ?].
Qed.

Lemma qualifying_rejected address (spent : list Z) outs :
  (∀ o, o ∈ outs → CanBeUnlockedWith o address = false) →
  qualifying address spent outs = [].
Proof. by apply filter_imap_rejected. Qed.

Lemma filter_imap_unspent address (spent : list Z) (g : nat → nat) outs :
  (∀ k o, outs !! k = Some o → CanBeUnlockedWith o address = true → Z.of_nat (g k) ∉ spent) →
  length (filter (λ p, (Z.of_nat (fst p) ∉ spent) ∧ CanBeUnlockedWith (snd p) address)
                 (imap (λ i o, (g i, o)) outs))
  = length (filter (λ o, CanBeUnlockedWith o address) outs).
Proof.
  revert g. induction outs as [|o outs IH]; intros g Hg; simpl; [done|].
  rewrite !filter_cons; simpl.
  specialize (IH (g ∘ S) (λ k o', Hg (S k) o')).
  destruct (CanBeUnlockedWith o address) eqn:Hacc.
  - rewrite decide_True by (split; [by apply (Hg 0 o)|done]).
    rewrite decide_True by done. simpl. by f_equal.
  - rewrite decide_False by (by intros [_ ?]).
    rewrite decide_False by (intros Hf; exact Hf). done.
Qed.

Lemma qualifying_unspent_length address (spent : list Z) outs :
  (∀ k o, outs !! k = Some o → CanBeUnlockedWith o address = true → Z.of_nat k ∉ spent) →
  length (qualifying address spent outs)
  = length (filter (λ o, CanBeUnlockedWith o address) outs).
Proof. apply (filter_imap_unspent address spent id). Qed.

Lemma unspent_walk_app address seen l1 l2 :
  unspent_walk address seen (l1 ++ l2)
  = unspent_walk address seen l1 ++ unspent_walk address (seen ++ l1) l2.
Proof.
  revert seen. induction l1 as [|tx l1 IH]; intros seen; simpl.
  - by rewrite app_nil_r.
  - rewrite IH, <- !app_assoc. done.
Qed.

Lemma unspent_walk_elem_of address seen txs t :
  t ∈ unspent_walk address seen txs → t ∈ txs.
Proof.
  revert seen. induction txs as [|tx txs IH]; intros seen; simpl; [done|].
  rewrite elem_of_app, elem_of_cons. intros [Ht|Ht].
  - left. by apply elem_of_replicate in Ht as [-> _].
  - right. by eapply IH.
Qed.

Lemma unspent_walk_rejected address seen txs :
  Forall (λ tx, ∀ o, o ∈ Out tx → CanBeUnlockedWith o address = false) txs →
  unspent_walk address seen txs = [].
Proof.
  intros Hall. revert seen. induction Hall as [|tx txs Htx _ IH]; intros seen; simpl; [done|].
  by rewrite qualifying_rejected, IH.
Qed.

(** C5. When the walk reaches a transaction, the spent-output map holds
    exactly what the inputs of the transactions met before it spend; the
    transaction's outputs are matched against that map, so that an
    output [address] can unlock, and that no earlier input spends, lists
    the transaction whatever its own inputs say; the transaction's own
    inputs join the map only after that; and the result of
    [FindUnspendTransaction] is the continuation of the walk from there. *)
Theorem outputs_scanned_before_own_inputs fuel env bc address blocks pre tx post :
  IterateBlockchain fuel env bc = Ok blocks →
  concat (Transactions <$> blocks) = pre ++ tx :: post →
  let st := fold_left (scan_tx address) pre ([], ∅) in
  (∀ id, default [] (st.2 !! id) = spent_by address id pre) ∧
  (scan_tx address st tx).1
    = st.1 ++ replicate (length (qualifying address (spent_by address (ID tx) pre) (Out tx))) tx ∧
  (∀ (k : nat) o, Out tx !! k = Some o → CanBeUnlockedWith o address = true →
            Z.of_nat k ∉ spent_by address (ID tx) pre → tx ∈ (scan_tx address st tx).1) ∧
  (∀ id, default [] ((scan_tx address st tx).2 !! id)
         = spent_by address id pre ++ spends address id tx) ∧
  FindUnspendTransaction fuel env bc address
    = Ok (fold_left (scan_tx address) post (scan_tx address st tx)).1.
Proof.
  intros Hwalk Hcat st.
  assert (Hst : ∀ id, default [] (st.2 !! id) = spent_by address id pre).
  { intros id. unfold st. by rewrite scan_txs_spent. }
  assert (Hscan : (scan_tx address st tx).1
    = st.1 ++ replicate (length (qualifying address (spent_by address (ID tx) pre) (Out tx))) tx).
  { unfold scan_tx; simpl. by rewrite scan_outputs_spec, Hst. }
  split; [done|]. split; [done|]. split; [|split].
  - intros k o Hk Hacc Hfree. rewrite Hscan, elem_of_app. right.
    assert (Hq : (k, o) ∈ qualifying address (spent_by address (ID tx) pre) (Out tx))
      by by apply elem_of_qualifying.
    destruct (qualifying _ _ _); [by apply elem_of_nil in Hq|]. by left.
  - intros id. by rewrite scan_tx_spent, Hst.
  - unfold FindUnspendTransaction.
    rewrite (FindUnspendTransaction_loop_blocks _ _ _ _ _ _ Hwalk).
    by rewrite scan_blocks_flat, Hcat, fold_left_app.
Qed.


(** C4. A transaction [T1] with two outputs that [address] can unlock,
    none of them spent by an input met earlier in the walk (that is,
    later in the chain), is listed twice in a row by
    [FindUnspendTransaction]; the entries before and after come from the
    other transactions of the chain. *)
Theorem two_unspent_outputs_listed_twice fuel env bc address blocks pre T1 post :
  IterateBlockchain fuel env bc = Ok blocks →
  concat (Transactions <$> blocks) = pre ++ T1 :: post →
  length (filter (λ o, CanBeUnlockedWith o address) (Out T1)) = 2 →
  (∀ (k : nat) o, Out T1 !! k = Some o → CanBeUnlockedWith o address = true →
            Z.of_nat k ∉ spent_by address (ID T1) pre) →
  ∃ before after,
    FindUnspendTransaction fuel env bc address = Ok (before ++ [T1; T1] ++ after) ∧
    (∀ t, t ∈ before → t ∈ pre) ∧ (∀ t, t ∈ after → t ∈ post).
Proof.
  intros Hwalk Hcat Htwo Hfree.
  exists (unspent_walk address [] pre), (unspent_walk address ([] ++ pre ++ [T1]) post).
  split; [|split].
  - rewrite (FindUnspendTransaction_walk _ _ _ _ _ Hwalk), Hcat.
    rewrite unspent_walk_app; simpl.
    by rewrite (qualifying_unspent_length _ _ _ Hfree), Htwo.
  - intros t. apply unspent_walk_elem_of.
  - intros t. apply unspent_walk_elem_of.
Qed.

(** Where the spend is seen.  In a chain where [T2] is met by the
    backward walk before [T1] (it lies in a block closer to the head, or
    before [T1] in the same block), [T1]'s output 0 is the only output of
    [T1] that [A] can unlock, [T2] is an ordinary transaction with an
    input on ([T1.ID], 0) that [A] unlocks and with the single output
    [OB], which only [B] can unlock and which nothing closer to the head
    spends, and the other transactions pay neither [A] nor [B]:
    [FindUTXO] returns no output for [A] and exactly [OB] for [B]. *)
Theorem spent_output_leaves_utxo sem fuel env bc A B blocks pre T2 mid T1 post O0 others i OB :
  IterateBlockchain fuel env bc = Ok blocks →
  concat (Transactions <$> blocks) = pre ++ T2 :: mid ++ T1 :: post →
  Forall (bystander A B) (pre ++ mid ++ post) →
  Out T1 = O0 :: others →
  CanBeUnlockedWith O0 A = true →
  (∀ o, o ∈ others → CanBeUnlockedWith o A = false) →
  (∀ o, o ∈ Out T1 → CanBeUnlockedWith o B = false) →
  IsCoinbase T2 = false →
  i ∈ In T2 → TXid i = ID T1 → Voutindex i = 0%Z → CanUnlockOutputWith i A = true →
  Out T2 = [OB] →
  CanBeUnlockedWith OB B = true → CanBeUnlockedWith OB A = false →
  0%Z ∉ spent_by B (ID T2) pre →
  ∃ rA rB,
    FindUTXO sem fuel env bc A = Ok rA ∧ values rA = [] ∧
    FindUTXO sem fuel env bc B = Ok rB ∧ values rB = [OB].
Proof.
  intros Hwalk Hcat Hby HT1 HO0 Hothers HT1B Hcb Hi Hid Hidx Hsig HT2 HOB HOBA Hfree.
  apply Forall_app in Hby as [Hpre Hby]. apply Forall_app in Hby as [Hmid Hpost].
  assert (HrejA : ∀ l, Forall (bystander A B) l →
            Forall (λ tx, ∀ o, o ∈ Out tx → CanBeUnlockedWith o A = false) l).
  { intros l Hl. eapply Forall_impl; [exact Hl|]. intros tx Htx o Ho. by apply Htx. }
  assert (HrejB : ∀ l, Forall (bystander A B) l →
            Forall (λ tx, ∀ o, o ∈ Out tx → CanBeUnlockedWith o B = false) l).
  { intros l Hl. eapply Forall_impl; [exact Hl|]. intros tx Htx o Ho. by apply Htx. }
  assert (Hspent : (0%Z) ∈ spent_by A (ID T1) (pre ++ T2 :: mid)).
  { rewrite spent_by_app, elem_of_app. right.
    unfold spent_by; simpl. rewrite elem_of_app. left.
    unfold spends. rewrite Hcb, <- Hidx. apply list_elem_of_fmap_2.
    apply list_elem_of_filter. split; [split; [by apply Is_true_true|done]|done]. }
  assert (HwA : unspent_walk A [] (pre ++ T2 :: mid ++ T1 :: post) = []).
  { rewrite unspent_walk_app, (unspent_walk_rejected A _ pre) by auto. simpl.
    rewrite (qualifying_rejected A _ (Out T2)).
    2:{ rewrite HT2. intros o ->%list_elem_of_singleton. done. }
    simpl. rewrite unspent_walk_app, (unspent_walk_rejected A _ mid) by auto. simpl.
    rewrite (unspent_walk_rejected A _ post), app_nil_r by auto.
    replace ((pre ++ [T2]) ++ mid) with (pre ++ T2 :: mid) by (by rewrite <- app_assoc).
    assert (Hq : qualifying A (spent_by A (ID T1) (pre ++ T2 :: mid)) (Out T1) = []).
    { rewrite HT1. unfold qualifying; simpl. rewrite filter_cons, decide_False.
      - by apply filter_imap_rejected.
      - simpl. intros [Hn _]. by apply Hn. }
    by rewrite Hq. }
  assert (HwB : unspent_walk B [] (pre ++ T2 :: mid ++ T1 :: post) = [T2]).
  { rewrite unspent_walk_app, (unspent_walk_rejected B _ pre) by auto. simpl.
    assert (Hq : qualifying B (spent_by B (ID T2) pre) (Out T2) = [(0, OB)]).
    { rewrite HT2. unfold qualifying; simpl. rewrite filter_cons, decide_True; [done|].
      simpl. split; [done|by apply Is_true_true]. }
    rewrite Hq; simpl.
    rewrite unspent_walk_app, (unspent_walk_rejected B _ mid) by auto. simpl.
    rewrite (unspent_walk_rejected B _ post), app_nil_r by auto.
    by rewrite (qualifying_rejected B _ (Out T1)). }
  exists (collect_outputs sem A []), (collect_outputs sem B [T2]).
  unfold FindUTXO. rewrite !(FindUnspendTransaction_walk _ _ _ _ _ Hwalk), Hcat, HwA, HwB.
  split; [done|]. split; [done|]. split; [done|].
  unfold collect_outputs, values; simpl. rewrite HT2; simpl. rewrite HOB.
  by destruct sem.
Qed.

End ResolverClaims.

(** ** The store and the ledger *)

Section LedgerFacts.
Context `{BlockScheme}.

Lemma length_zero_empty (s : string) : String.length s = 0 ↔ s = "".
Proof. by destruct s. Qed.

Lemma Put_Some bucket key value bucket' :
  Put bucket key value = Some bucket' → key ≠ "" ∧ bucket' = <[key := value]> bucket.
Proof.
  unfold Put. case_decide; [done|].
  destruct (_ <? _)%Z; [done|]. destruct (_ <? _)%Z; [done|]. by intros [= <-].
Qed.

Lemma Put_is_Some bucket bucket' key value :
  is_Some (Put bucket key value) → is_Some (Put bucket' key value).
Proof.
  unfold Put. case_decide; [done|].
  destruct (_ <? _)%Z; [done|]. destruct (_ <? _)%Z; [done|]. by eauto.
Qed.

Lemma Put_storable bucket b :
  storable b →
  Put bucket (Hash b) (Serialize b) = Some (<[Hash b := Serialize b]> bucket) ∧
  ∀ bucket', Put bucket' latest (Hash b) = Some (<[latest := Hash b]> bucket').
Proof.
  intros (Hne & Hkey & Hval). unfold Put. split.
  - rewrite decide_False by done.
    destruct (Z.ltb_spec MaxKeySize (Z.of_nat (String.length (Hash b)))); [lia|].
    destruct (Z.ltb_spec MaxValueSize (Z.of_nat (String.length (Serialize b)))); [lia|].
    done.
  - intros bucket'. rewrite decide_False by done.
    replace (MaxKeySize <? Z.of_nat (String.length latest))%Z with false by reflexivity.
    destruct (Z.ltb_spec MaxValueSize (Z.of_nat (String.length (Hash b)))); [|done].
    unfold MaxKeySize, MaxValueSize in *. lia.
Qed.

(** What a returning [AddBlock] has done when its write transaction
    began. *)
Lemma AddBlock_Ok env bc txs v bc' :
  AddBlock env bc txs = (Ok v, bc') →
  v = true ∧ view_err env = false ∧
  ∃ bucket, db bc = Some bucket ∧
    (begin_err env = true ∧ bc' = bc ∨
     begin_err env = false ∧
     let newBlock := NewBlock (Get bucket latest) txs in
     Hash newBlock ≠ "" ∧
     topHash bc' = Hash newBlock ∧
     db bc' = if commit_err env then db bc
              else Some (<[latest := Hash newBlock]>
                           (<[Hash newBlock := Serialize newBlock]> bucket))).
Proof.
  unfold AddBlock, View, Update. destruct (view_err env); [done|].
  destruct bc as [top [bucket|]]; simpl; [|done].
  destruct (begin_err env).
  { intros [= <- <-]. split; [done|]. split; [done|]. exists bucket. by split; [|left]. }
  destruct (Put bucket _ _) as [b1|] eqn:H1; simpl; [|done].
  destruct (Put b1 _ _) as [b2|] eqn:H2; simpl; [|done].
  apply Put_Some in H1 as [Hne ->]. apply Put_Some in H2 as [_ ->].
  destruct (commit_err env); intros [= <- <-];
    (split; [done|]; split; [done|]; exists bucket; split; [done|right; done]).
Qed.

Lemma AddBlock_storable env bc txs bucket :
  view_err env = false → begin_err env = false →
  db bc = Some bucket →
  let newBlock := NewBlock (Get bucket latest) txs in
  storable newBlock →
  AddBlock env bc txs
  = (Ok true,
     {| topHash := Hash newBlock;
        db := if commit_err env then db bc
              else Some (<[latest := Hash newBlock]>
                           (<[Hash newBlock := Serialize newBlock]> bucket)) |}).
Proof.
  intros Hview Hbegin Hdb newBlock Hst.
  destruct (Put_storable bucket newBlock Hst) as [H1 H2].
  unfold AddBlock, View, Update. rewrite Hview, Hdb; simpl. rewrite Hbegin.
  fold newBlock. rewrite H1, H2. by destruct (commit_err env).
Qed.

End LedgerFacts.

Section LedgerClaims.
Context `{BlockScheme}.

(** C10. [AddBlock] never returns [false]; when the write transaction
    runs its closure to the end and then fails to commit, or fails to
    begin, the call still returns [true] and does not panic, although the
    store is as it was. *)
Theorem AddBlock_never_reports_write_failure env bc txs :
  (∀ v bc', AddBlock env bc txs = (Ok v, bc') → v = true) ∧
  (∀ bucket,
      view_err env = false → begin_err env = false → commit_err env = true →
      db bc = Some bucket →
      storable (NewBlock (Get bucket latest) txs) →
      AddBlock env bc txs
      = (Ok true, {| topHash := Hash (NewBlock (Get bucket latest) txs); db := db bc |})) ∧
  (view_err env = false → begin_err env = true → is_Some (db bc) →
   AddBlock env bc txs = (Ok true, bc)).
Proof.
  split; [|split].
  - intros v bc' Hret. by apply AddBlock_Ok in Hret as [-> _].
  - intros bucket Hview Hbegin Hcommit Hdb Hst.
    rewrite (AddBlock_storable env bc txs bucket Hview Hbegin Hdb Hst).
    by rewrite Hcommit.
  - intros Hview Hbegin [bucket Hdb].
    unfold AddBlock, View, Update. rewrite Hview, Hdb; simpl. rewrite Hbegin.
    destruct bc as [top d]; simpl in *. by subst.
Qed.

(** C9. The parent hash handed to [NewBlock] is the one stored under
    the reserved key, not the in-memory head.  Two ledgers whose stores
    agree on that key always end [AddBlock] with the same result,
    whatever their in-memory heads are; and when the read transaction
    succeeds, the write transaction begins and the store accepts the
    block, both calls return [true] with the head set to the hash of the
    same new block, [NewBlock] applied to the stored value of the reserved
    key, and, when the commit succeeds, with that block stored under its
    hash and the reserved key on that hash. *)
Theorem parent_hash_read_from_store env bc1 bc2 txs bucket1 bucket2 :
  db bc1 = Some bucket1 → db bc2 = Some bucket2 →
  Get bucket1 latest = Get bucket2 latest →
  let newBlock := NewBlock (Get bucket1 latest) txs in
  (AddBlock env bc1 txs).1 = (AddBlock env bc2 txs).1 ∧
  (view_err env = false → begin_err env = false → storable newBlock →
   AddBlock env bc1 txs
   = (Ok true,
      {| topHash := Hash newBlock;
         db := if commit_err env then Some bucket1
               else Some (<[latest := Hash newBlock]>
                            (<[Hash newBlock := Serialize newBlock]> bucket1)) |}) ∧
   AddBlock env bc2 txs
   = (Ok true,
      {| topHash := Hash newBlock;
         db := if commit_err env then Some bucket2
               else Some (<[latest := Hash newBlock]>
                            (<[Hash newBlock := Serialize newBlock]> bucket2)) |})).
Proof.
  intros Hdb1 Hdb2 Hlatest newBlock. split.
  - unfold AddBlock, View, Update. rewrite Hdb1, Hdb2; simpl. rewrite <- Hlatest.
    destruct (view_err env); [done|]. destruct (begin_err env); [done|].
    fold newBlock.
    destruct (Put bucket1 _ _) as [b1|] eqn:Hput1; simpl.
    + destruct (Put_is_Some bucket1 bucket2 _ _ (mk_is_Some _ _ Hput1)) as [b2 Hput2].
      rewrite Hput2; simpl.
      destruct (Put b1 _ _) as [b1'|] eqn:Hput1'; simpl.
      * destruct (Put_is_Some b1 b2 _ _ (mk_is_Some _ _ Hput1')) as [b2' Hput2'].
        rewrite Hput2'. by destruct (commit_err env).
      * destruct (Put b2 _ _) as [b2'|] eqn:Hput2'; simpl; [|done].
        destruct (Put_is_Some b2 b1 _ _ (mk_is_Some _ _ Hput2')) as [? ?]. congruence.
    + destruct (Put bucket2 _ _) as [b2|] eqn:Hput2; simpl; [|done].
      destruct (Put_is_Some bucket2 bucket1 _ _ (mk_is_Some _ _ Hput2)) as [? ?].
      congruence.
  - intros Hview Hbegin Hst. split.
    + rewrite (AddBlock_storable env bc1 txs bucket1 Hview Hbegin Hdb1 Hst).
      fold newBlock. by rewrite Hdb1.
    + assert (Hst2 : storable (NewBlock (Get bucket2 latest) txs))
        by (by rewrite <- Hlatest).
      rewrite (AddBlock_storable env bc2 txs bucket2 Hview Hbegin Hdb2 Hst2).
      rewrite <- Hlatest. fold newBlock. by rewrite Hdb2.
Qed.

End LedgerClaims.


(** ** Chains in the store *)

Section ChainClaims.
Context `{BlockLaws}.

Lemma Next_stored env bucket h b :
  view_err env = false →
  bucket !! h = Some (Serialize b) →
  Next env {| currentHash := h; bit_db := Some bucket |}
  = Ok (b, {| currentHash := PrevBlockHash b; bit_db := Some bucket |}).
Proof.
  intros Hview Hlook. unfold Next, View, Next_fn, Get; simpl.
  by rewrite Hview, Hlook; simpl; rewrite codec_lossless.
Qed.

Lemma stored_chain_walk env bucket blocks h (fuel : nat) :
  view_err env = false →
  stored_chain bucket h blocks →
  (length blocks ≤ fuel)%nat →
  IterateBlockchain_loop fuel env {| currentHash := h; bit_db := Some bucket |} = Ok blocks.
Proof.
  intros Hview. revert h fuel.
  induction blocks as [|b rest IH]; intros h fuel Hchain Hfuel; [done|].
  destruct Hchain as (Hh & _ & _ & Hlook & Hrest).
  destruct fuel as [|fuel]; [simpl in Hfuel; lia|]. simpl.
  rewrite (Next_stored env bucket h b Hview Hlook).
  destruct rest as [|b' rest'].
  - rewrite Hrest. by rewrite decide_True.
  - destruct Hrest as [Hprev Hrest].
    rewrite decide_False by (by rewrite length_zero_empty).
    rewrite (IH _ fuel Hrest); [done|]. simpl in *. lia.
Qed.

Lemma stored_chain_insert (bucket : gmap string string) k v h blocks :
  bucket !! k = None ∨ k = latest →
  stored_chain bucket h blocks →
  stored_chain (<[k := v]> bucket) h blocks.
Proof.
  intros Hk. revert h. induction blocks as [|b rest IH]; intros h; [done|].
  intros (Hh & Hne & Hlatest & Hlook & Hrest).
  split; [done|]. split; [done|]. split; [done|]. split.
  - rewrite lookup_insert_ne; [done|]. destruct Hk as [Hk| ->]; congruence.
  - destruct rest as [|b' rest']; [done|].
    destruct Hrest as [Hprev Hrest]. split; [done|]. by apply IH.
Qed.

Lemma stored_chain_keys (bucket : gmap string string) h blocks b :
  stored_chain bucket h blocks → b ∈ blocks → is_Some (bucket !! Hash b).
Proof.
  revert h. induction blocks as [|b0 rest IH]; intros h; [done|].
  intros (Hh & _ & _ & Hlook & Hrest) [->|Hin]%elem_of_cons.
  - rewrite Hh. by eauto.
  - destruct rest as [|b' rest']; [by apply elem_of_nil in Hin|].
    destruct Hrest as [_ Hrest]. by eapply IH.
Qed.

(** In a stored chain every block names its successor in the list, and
    the last block, and only it, has an empty [PrevBlockHash]. *)
Lemma stored_chain_linked (bucket : gmap string string) h blocks :
  stored_chain bucket h blocks →
  (∀ i b b', blocks !! i = Some b → blocks !! S i = Some b' → PrevBlockHash b = Hash b') ∧
  (∀ i b, blocks !! i = Some b → PrevBlockHash b = "" ↔ S i = length blocks).
Proof.
  revert h. induction blocks as [|b0 rest IH]; intros h; [done|].
  intros (Hh & _ & _ & Hlook & Hrest).
  destruct rest as [|b1 rest'].
  - split.
    + by intros [|i] b b' ? ?.
    + intros [|i] b; [|done]. intros [= <-]. simpl. by split.
  - destruct Hrest as [Hprev Hrest].
    destruct (IH _ Hrest) as [IH1 IH2]. split.
    + intros [|i] b b' Hb Hb'.
      * simpl in Hb, Hb'. simplify_eq. by destruct Hrest as [-> _].
      * by apply (IH1 i).
    + intros [|i] b Hb.
      * simpl in Hb. simplify_eq. simpl. by split.
      * rewrite (IH2 i b Hb). simpl. by split; intros ?; lia.
Qed.

(** What holds of every ledger built from genesis. *)
Lemma Built_stored n bc blocks :
  Built n bc blocks →
  ∃ bucket, db bc = Some bucket ∧
            bucket !! latest = Some (topHash bc) ∧
            stored_chain bucket (topHash bc) blocks ∧
            length blocks = S n ∧
            NoDup (Hash <$> blocks).
Proof.
  induction 1 as [env bc Hcreate Hne|env n bc blocks txs bc' _ IH Happ].
  - unfold CreateBlockchain, Update in Hcreate; simpl in Hcreate.
    destruct (open_err env); [done|]. destruct (begin_err env); [done|].
    destruct (Put ∅ _ _) as [b1|] eqn:Hput1; simpl in Hcreate; [|done].
    destruct (Put b1 _ _) as [b2|] eqn:Hput2; simpl in Hcreate; [|done].
    apply Put_Some in Hput1 as [Hh ->]. apply Put_Some in Hput2 as [_ ->].
    destruct (commit_err env); simpl in Hcreate; [done|]. simplify_eq. simpl.
    eexists. split; [done|]. split; [by rewrite lookup_insert_eq|].
    split; [|split; [done|]].
    + split; [done|]. split; [done|]. split; [done|]. split.
      * rewrite lookup_insert_ne by done. by rewrite lookup_insert_eq.
      * apply GenesisBlock_prev.
    + simpl. apply NoDup_singleton.
  - destruct IH as (bucket & Hdb & Hlatest & Hchain & Hlen & Hnodup).
    destruct Happ as (Hret & Hbegin & Hcommit & bucket' & Hdb' & Hfresh).
    rewrite Hdb in Hdb'. simplify_eq.
    apply AddBlock_Ok in Hret
      as (_ & _ & b & Hb & [[? _]|(_ & Hne & Htop & Hst)]); [congruence|].
    rewrite Hdb in Hb. simplify_eq. rewrite Hcommit in Hst.
    assert (Hget : Get b latest = topHash bc) by (unfold Get; by rewrite Hlatest).
    rewrite Hget in *.
    set (newBlock := NewBlock (topHash bc) txs) in *.
    assert (Hnl : Hash newBlock ≠ latest) by congruence.
    exists (<[latest := Hash newBlock]> (<[Hash newBlock := Serialize newBlock]> b)).
    split; [done|]. rewrite Htop. split; [by rewrite lookup_insert_eq|].
    split; [|split].
    + split; [done|]. split; [done|]. split; [done|]. split.
      * rewrite lookup_insert_ne by done. by rewrite lookup_insert_eq.
      * destruct blocks as [|b0 rest]; [done|].
        unfold newBlock. rewrite NewBlock_prev. split.
        -- by destruct Hchain as (_ & ? & _).
        -- apply stored_chain_insert; [by right|].
           apply stored_chain_insert; [by left|done].
    + simpl. by rewrite Hlen.
    + simpl. apply NoDup_cons. split; [|done].
      intros (b0 & Heq & Hin)%list_elem_of_fmap.
      destruct (stored_chain_keys _ _ _ _ Hchain Hin) as [v Hv]. congruence.
Qed.

(** C7. On a ledger built from genesis by [n] committed [AddBlock] calls,
    the walk from the head, stopping after the block whose [PrevBlockHash]
    is empty, ends for every fuel above [n] and returns the [n + 1] blocks
    created, newest first: their hashes are pairwise distinct, each block
    names the next one returned as its predecessor, and the last one
    returned, and only it, has an empty [PrevBlockHash]. *)
Theorem walk_returns_whole_chain (n : nat) bc blocks env (fuel : nat) :
  Built n bc blocks →
  view_err env = false →
  (n < fuel)%nat →
  IterateBlockchain fuel env bc = Ok blocks ∧
  length blocks = S n ∧
  NoDup (Hash <$> blocks) ∧
  (∀ i b b', blocks !! i = Some b → blocks !! S i = Some b' → PrevBlockHash b = Hash b') ∧
  (∀ i b, blocks !! i = Some b → PrevBlockHash b = "" ↔ i = n).
Proof.
  intros Hbuilt Hview Hfuel.
  destruct (Built_stored _ _ _ Hbuilt) as (bucket & Hdb & _ & Hchain & Hlen & Hnodup).
  destruct (stored_chain_linked _ _ _ Hchain) as [Hlink Hlast].
  split; [|split; [done|split; [done|split; [done|]]]].
  - unfold IterateBlockchain, Iterator. rewrite Hdb.
    apply stored_chain_walk; [done|done|]. rewrite Hlen. lia.
  - intros i b Hb. rewrite (Hlast i b Hb), Hlen. by split; intros ?; lia.
Qed.


End ChainClaims.


(** ** The walk on an arbitrary store *)

Section WalkFacts.
Context `{BlockScheme}.

(** What a returning [Next] has read. *)
Lemma Next_Ok env bit b bit' :
  Next env bit = Ok (b, bit') →
  view_err env = false ∧
  bit' = {| currentHash := PrevBlockHash b; bit_db := bit_db bit |} ∧
  ∃ bucket, bit_db bit = Some bucket ∧ Deserialize (Get bucket (currentHash bit)) = Some b.
Proof.
  unfold Next, View, Next_fn. destruct (view_err env); [done|].
  destruct (bit_db bit) as [bucket|] eqn:Hdb; [|done].
  destruct (Deserialize _) as [b0|] eqn:Hdes; [|done].
  intros [= <- <-]. split; [done|]. split; [done|]. by exists bucket.
Qed.

Lemma IterateBlockchain_loop_more (fuel fuel' : nat) env bit blocks :
  IterateBlockchain_loop fuel env bit = Ok blocks →
  (fuel ≤ fuel')%nat →
  IterateBlockchain_loop fuel' env bit = Ok blocks.
Proof.
  revert fuel' bit blocks. induction fuel as [|fuel IH]; intros fuel' bit blocks; [done|].
  destruct fuel' as [|fuel']; [lia|]. simpl.
  destruct (Next env bit) as [[b bit']| |]; [|done|done].
  case_decide; [done|].
  destruct (IterateBlockchain_loop fuel env bit') as [rest| |] eqn:Hrest; [|done|done].
  intros [= <-] Hle. by rewrite (IH fuel' bit' rest Hrest) by lia.
Qed.

(** X1. Whatever the store holds, when the walk returns it has returned
    at least one block and at most as many as its fuel; the first block is
    the one decoded from the entry under the head hash, each further block
    the one decoded from the entry under the [PrevBlockHash] of the block
    before it; the last block returned, and only it, has an empty
    [PrevBlockHash]; and more fuel gives the same result. *)
Theorem walk_shape (fuel : nat) env bc blocks :
  IterateBlockchain fuel env bc = Ok blocks →
  (0 < length blocks ≤ fuel)%nat ∧
  (∃ bucket, db bc = Some bucket ∧
     (∀ b, blocks !! 0%nat = Some b → Deserialize (Get bucket (topHash bc)) = Some b) ∧
     (∀ (i : nat) b b', blocks !! i = Some b → blocks !! S i = Some b' →
                Deserialize (Get bucket (PrevBlockHash b)) = Some b')) ∧
  (∀ (i : nat) b, blocks !! i = Some b → PrevBlockHash b = "" ↔ S i = length blocks) ∧
  (∀ fuel' : nat, (fuel ≤ fuel')%nat → IterateBlockchain fuel' env bc = Ok blocks).
Proof.
  unfold IterateBlockchain.
  assert (Hgen : ∀ (fuel : nat) bit blocks,
    IterateBlockchain_loop fuel env bit = Ok blocks →
    (0 < length blocks ≤ fuel)%nat ∧
    (∃ bucket, bit_db bit = Some bucket ∧
       (∀ b, blocks !! 0%nat = Some b → Deserialize (Get bucket (currentHash bit)) = Some b) ∧
       (∀ (i : nat) b b', blocks !! i = Some b → blocks !! S i = Some b' →
                  Deserialize (Get bucket (PrevBlockHash b)) = Some b')) ∧
    (∀ (i : nat) b, blocks !! i = Some b → PrevBlockHash b = "" ↔ S i = length blocks)).
  { clear fuel blocks. induction fuel as [|fuel IH]; intros bit blocks; [done|]. simpl.
    destruct (Next env bit) as [[b bit']| |] eqn:Hnext; [|done|done].
    apply Next_Ok in Hnext as (_ & -> & bucket & Hdb & Hdes).
    case_decide as Hlen.
    - intros [= <-]. apply length_zero_empty in Hlen. split; [simpl; lia|]. split.
      + exists bucket. split; [done|]. split; [by intros ? [= <-]|by intros [|i] ? ? ? ?].
      + intros [|i] b0; [|done]. intros [= <-]. simpl. by split.
    - destruct (IterateBlockchain_loop fuel env _) as [rest| |] eqn:Hrest; [|done|done].
      intros [= <-].
      destruct (IH _ _ Hrest) as (Hlen' & (bucket' & Hdb' & Hhead & Hlink) & Hlast).
      simpl in Hdb'. rewrite Hdb in Hdb'. injection Hdb' as <-.
      rewrite length_zero_empty in Hlen.
      split; [simpl; lia|]. split.
      + exists bucket. split; [done|]. split; [by intros ? [= <-]|].
        intros [|i] b0 b1 Hb0 Hb1.
        * simpl in Hb0. injection Hb0 as <-. by apply Hhead.
        * by apply (Hlink i).
      + intros [|i] b0 Hb0.
        * simpl in Hb0. injection Hb0 as <-. simpl. split; [done|lia].
        * rewrite (Hlast i b0 Hb0). simpl. by split; intros ?; lia. }
  intros Hwalk. destruct (Hgen _ _ _ Hwalk) as (Hlen & Hstore & Hlast).
  split; [done|]. split; [done|]. split; [done|].
  intros fuel' Hle. by apply (IterateBlockchain_loop_more fuel).
Qed.

(** X2. A stored block that names itself as its predecessor makes the
    walk from it go on for ever: whatever fuel it is given, it has not
    returned. *)
Theorem walk_self_cycle_never_returns (fuel : nat) env bc bucket b :
  view_err env = false →
  db bc = Some bucket →
  Deserialize (Get bucket (topHash bc)) = Some b →
  PrevBlockHash b = topHash bc →
  topHash bc ≠ "" →
  IterateBlockchain fuel env bc = OutOfFuel.
Proof.
  intros Hview Hdb Hdes Hprev Hne. unfold IterateBlockchain, Iterator. rewrite Hdb.
  induction fuel as [|fuel IH]; [done|]. simpl.
  unfold Next, View, Next_fn; simpl. rewrite Hview, Hdes, Hprev.
  rewrite decide_False by (by rewrite length_zero_empty). by rewrite IH.
Qed.

Lemma FindUnspendTransaction_loop_cases fuel env address bit st :
  FindUnspendTransaction_loop fuel env address bit st
  = match IterateBlockchain_loop fuel env bit with
    | Ok blocks => Ok (fold_left (scan_block address) blocks st)
    | Panic => Panic
    | OutOfFuel => OutOfFuel
    end.
Proof.
  revert bit st. induction fuel as [|fuel IH]; intros bit st; [done|]. simpl.
  destruct (Next env bit) as [[b bit']| |]; [|done|done].
  case_decide; [done|]. rewrite IH.
  by destruct (IterateBlockchain_loop fuel env bit').
Qed.

Lemma FindUnspendTransaction_cases fuel env bc address :
  FindUnspendTransaction fuel env bc address
  = match IterateBlockchain fuel env bc with
    | Ok blocks => Ok (unspent_walk address [] (concat (Transactions <$> blocks)))
    | Panic => Panic
    | OutOfFuel => OutOfFuel
    end.
Proof.
  unfold FindUnspendTransaction, IterateBlockchain.
  rewrite FindUnspendTransaction_loop_cases.
  destruct (IterateBlockchain_loop fuel env (Iterator bc)) as [blocks| |]; [|done|done].
  by rewrite scan_blocks_flat, (scan_txs_walk _ _ []).
Qed.

Lemma FindUTXO_cases sem fuel env bc address :
  FindUTXO sem fuel env bc address
  = match IterateBlockchain fuel env bc with
    | Ok blocks =>
        Ok (collect_outputs sem address
              (unspent_walk address [] (concat (Transactions <$> blocks))))
    | Panic => Panic
    | OutOfFuel => OutOfFuel
    end.
Proof.
  unfold FindUTXO. rewrite FindUnspendTransaction_cases.
  by destruct (IterateBlockchain fuel env bc).
Qed.

(** X3. The resolver ends as the walk of the chain ends: it panics when
    the walk panics, has not returned when the walk has not, and otherwise
    returns the scan of the transactions of the blocks walked, in walk
    order; [FindUTXO] follows [FindUnspendTransaction] in the same way. *)
Theorem resolver_follows_walk sem fuel env bc address :
  FindUnspendTransaction fuel env bc address
  = match IterateBlockchain fuel env bc with
    | Ok blocks => Ok (unspent_walk address [] (concat (Transactions <$> blocks)))
    | Panic => Panic
    | OutOfFuel => OutOfFuel
    end ∧
  FindUTXO sem fuel env bc address
  = match IterateBlockchain fuel env bc with
    | Ok blocks =>
        Ok (collect_outputs sem address
              (unspent_walk address [] (concat (Transactions <$> blocks))))
    | Panic => Panic
    | OutOfFuel => OutOfFuel
    end.
Proof.
  split.
  - apply FindUnspendTransaction_cases.
  - unfold FindUTXO. rewrite FindUnspendTransaction_cases.
    by destruct (IterateBlockchain fuel env bc).
Qed.

End WalkFacts.


(** ** Bootstrap, append and restart *)

Section LedgerExtras.
Context `{BlockScheme}.

Lemma Put_block_Some bucket b bucket' :
  Put bucket (Hash b) (Serialize b) = Some bucket'
  ↔ storable b ∧ bucket' = <[Hash b := Serialize b]> bucket.
Proof.
  split.
  - unfold Put, storable. case_decide; [done|].
    destruct (Z.ltb_spec MaxKeySize (Z.of_nat (String.length (Hash b)))); [done|].
    destruct (Z.ltb_spec MaxValueSize (Z.of_nat (String.length (Serialize b)))); [done|].
    intros [= <-]. repeat split; [done|lia|lia].
  - intros [Hst ->]. by destruct (Put_storable bucket b Hst) as [-> _].
Qed.

(** What a returning bootstrap of an empty store has done. *)
Lemma CreateBlockchain_fresh_Ok env bc :
  CreateBlockchain env None = Ok bc →
  open_err env = false ∧ begin_err env = false ∧ commit_err env = false ∧
  storable GenesisBlock ∧
  bc = {| topHash := Hash GenesisBlock;
          db := Some (<[latest := Hash GenesisBlock]>
                        (<[Hash GenesisBlock := Serialize GenesisBlock]> ∅)) |}.
Proof.
  unfold CreateBlockchain, Update; simpl.
  destruct (open_err env); [done|]. destruct (begin_err env); [done|].
  destruct (Put ∅ _ _) as [b1|] eqn:Hput1; simpl; [|done].
  apply Put_block_Some in Hput1 as [Hst ->].
  destruct (Put_storable ∅ GenesisBlock Hst) as [_ Hput2]. rewrite Hput2.
  destruct (commit_err env); [done|]. by intros [= <-].
Qed.

(** X4. On a store without the block bucket [CreateBlockchain] returns
    exactly when the file opens, the write transaction begins and commits,
    and the store accepts the genesis block; the ledger then has the
    genesis hash as its head and the bucket the two [Put]s leave.  In
    every other case it panics.  When the genesis hash is not the reserved
    key that bucket has exactly two entries, the genesis block under its
    hash and the genesis hash under the reserved key; when it is, the
    second [Put] overwrites the first and the bucket has the reserved key
    as its single entry, with no block in it. *)
Theorem CreateBlockchain_fresh env bc :
  let bucket : gmap string string :=
    <[latest := Hash GenesisBlock]> (<[Hash GenesisBlock := Serialize GenesisBlock]> ∅) in
  (CreateBlockchain env None = Ok bc
   ↔ open_err env = false ∧ begin_err env = false ∧ commit_err env = false ∧
     storable GenesisBlock ∧
     bc = {| topHash := Hash GenesisBlock; db := Some bucket |}) ∧
  ((∀ bc', CreateBlockchain env None ≠ Ok bc') → CreateBlockchain env None = Panic) ∧
  (Hash GenesisBlock ≠ latest →
   size bucket = 2 ∧
   bucket !! Hash GenesisBlock = Some (Serialize GenesisBlock) ∧
   bucket !! latest = Some (Hash GenesisBlock)) ∧
  (Hash GenesisBlock = latest → bucket = {[ latest := latest ]}).
Proof.
  intros bucket. split; [|split; [|split]].
  - split; [apply CreateBlockchain_fresh_Ok|].
    intros (Hopen & Hbegin & Hcommit & Hst & ->).
    unfold CreateBlockchain, Update; simpl. rewrite Hopen, Hbegin.
    destruct (Put_storable ∅ GenesisBlock Hst) as [-> Hput2]. simpl.
    by rewrite Hput2, Hcommit.
  - intros Hnot. unfold CreateBlockchain, Update in *; simpl in *.
    destruct (open_err env); [done|]. destruct (begin_err env); [done|].
    destruct (Put ∅ _ _) as [b1|]; simpl in *; [|done].
    destruct (Put b1 _ _) as [b2|]; simpl in *; [|done].
    destruct (commit_err env); [done|]. by destruct (Hnot _ eq_refl).
  - intros Hne. unfold bucket. split; [|split].
    + rewrite map_size_insert_None
        by (rewrite lookup_insert_ne by done; apply lookup_empty).
      by rewrite map_size_insert_None, map_size_empty by apply lookup_empty.
    + rewrite lookup_insert_ne by done. apply lookup_insert_eq.
    + apply lookup_insert_eq.
  - intros Heq. unfold bucket. rewrite Heq. by rewrite insert_insert_eq.
Qed.

(** X5. On a store that has the block bucket [CreateBlockchain] writes
    nothing and creates no genesis block: it returns exactly when the file
    opens and the transaction begins and commits, with the bucket as it
    was and the head read from the reserved key (empty when the key is
    absent); otherwise it panics. *)
Theorem CreateBlockchain_reopen env bucket bc :
  (CreateBlockchain env (Some bucket) = Ok bc
   ↔ open_err env = false ∧ begin_err env = false ∧ commit_err env = false ∧
     bc = {| topHash := Get bucket latest; db := Some bucket |}) ∧
  ((∀ bc', CreateBlockchain env (Some bucket) ≠ Ok bc') →
   CreateBlockchain env (Some bucket) = Panic).
Proof.
  unfold CreateBlockchain, Update; simpl.
  destruct (open_err env), (begin_err env), (commit_err env); simpl;
    (split; [split; [try done; by intros [= <-]|by intros (? & ? & ? & ->)]|]);
    try done.
  intros Hnot. by destruct (Hnot _ eq_refl).
Qed.

(** A panicking [AddBlock] leaves the ledger as it was. *)
Lemma AddBlock_Panic_unchanged env bc txs bc' :
  AddBlock env bc txs = (Panic, bc') → bc' = bc.
Proof.
  unfold AddBlock, View, Update.
  destruct bc as [top [bucket|]]; simpl.
  2:{ destruct (view_err env); by intros [= <-]. }
  destruct (view_err env); [by intros [= <-]|].
  destruct (begin_err env); [done|].
  destruct (Put bucket _ _) as [b1|]; simpl; [|by intros [= <-]].
  destruct (Put b1 _ _) as [b2|]; simpl; [|by intros [= <-]].
  by destruct (commit_err env).
Qed.

(** X6. [AddBlock] panics exactly when the read transaction fails, the
    bucket is missing, or the write transaction begins and the store does
    not accept the new block; the ledger, store and head, is then what it
    was before the call. *)
Theorem AddBlock_panics env bc txs bc' :
  AddBlock env bc txs = (Panic, bc')
  ↔ bc' = bc ∧
    (view_err env = true ∨ db bc = None ∨
     (begin_err env = false ∧
      ∃ bucket, db bc = Some bucket ∧ ¬ storable (NewBlock (Get bucket latest) txs))).
Proof.
  unfold AddBlock, View, Update.
  destruct bc as [top [bucket|]]; simpl.
  2:{ destruct (view_err env); (split; [intros [= <-]; split; [done|by auto]|]);
        by intros [-> _]. }
  destruct (view_err env).
  { split; [intros [= <-]; split; [done|by left]|by intros [-> _]]. }
  destruct (begin_err env).
  { split; [done|]. intros [_ [?|[?|[? _]]]]; done. }
  destruct (Put bucket _ _) as [b1|] eqn:Hput1; simpl.
  - apply Put_block_Some in Hput1 as [Hst ->].
    destruct (Put_storable bucket _ Hst) as [_ Hput2]. rewrite Hput2.
    split; [by destruct (commit_err env)|].
    intros [_ [?|[?|[_ (b & [= <-] & Hn)]]]]; done.
  - split.
    + intros [= <-]. split; [done|]. right. right. split; [done|].
      exists bucket. split; [done|]. intros Hst.
      destruct (Put_storable bucket _ Hst) as [Hput _]. congruence.
    + by intros [-> _].
Qed.

(** X7. [AddBlock] only adds to the store: whatever the outcome, a store
    without the bucket stays without it, and in a store with the bucket
    every key stays present and every key other than the reserved key and
    the new block's hash keeps its value. *)
Theorem AddBlock_keeps_entries env bc txs :
  (db bc = None → db (AddBlock env bc txs).2 = None) ∧
  (∀ bucket, db bc = Some bucket →
     ∃ bucket', db (AddBlock env bc txs).2 = Some bucket' ∧
       dom bucket ⊆ dom bucket' ∧
       ∀ k, k ≠ latest → k ≠ Hash (NewBlock (Get bucket latest) txs) →
            bucket' !! k = bucket !! k).
Proof.
  split.
  - intros Hdb. unfold AddBlock, View, Update. rewrite Hdb; simpl.
    by destruct (view_err env).
  - intros bucket Hdb.
    destruct (AddBlock env bc txs) as [[v| |] bc'] eqn:Hret; simpl.
    + apply AddBlock_Ok in Hret
        as (_ & _ & b & Hb & [[_ ->]|(_ & _ & _ & Hst)]).
      { exists bucket. by split. }
      assert (b = bucket) as -> by congruence.
      destruct (commit_err env).
      { exists bucket. split; [congruence|]. by split. }
      eexists. split; [exact Hst|]. split.
      * rewrite !dom_insert. set_solver.
      * intros k Hk1 Hk2. by rewrite !lookup_insert_ne.
    + apply AddBlock_Panic_unchanged in Hret as ->. exists bucket. by split.
    + unfold AddBlock, View, Update in Hret. rewrite Hdb in Hret; simpl in Hret.
      destruct (view_err env); [done|]. destruct (begin_err env); [done|].
      destruct (Put bucket _ _) as [b1|]; simpl in Hret; [|done].
      destruct (Put b1 _ _) as [b2|]; simpl in Hret; [|done].
      by destruct (commit_err env).
Qed.

End LedgerExtras.

Section RestartFacts.
Context `{BlockLaws}.

(** X8. On a ledger built from genesis by committed [AddBlock] calls,
    [GetTopHash] is the hash of the newest block, the reserved key holds
    the same hash, the newest block is stored under it, and opening the
    store again, when nothing fails, gives the same ledger. *)
Theorem built_head_survives_restart (n : nat) bc blocks env :
  Built n bc blocks →
  open_err env = false → begin_err env = false → commit_err env = false →
  ∃ bucket newest,
    blocks !! 0%nat = Some newest ∧
    GetTopHash bc = Hash newest ∧
    head_stored bc bucket newest ∧
    CreateBlockchain env (db bc) = Ok bc.
Proof.
  intros Hbuilt Hopen Hbegin Hcommit.
  destruct (Built_stored _ _ _ Hbuilt) as (bucket & Hdb & Hlatest & Hchain & _ & _).
  destruct blocks as [|newest rest]; [done|].
  destruct Hchain as (Hh & _ & Hnl & Hlook & _).
  exists bucket, newest. split; [done|]. split; [done|]. split; [done|].
  rewrite Hdb. unfold CreateBlockchain, Update; simpl.
  rewrite Hopen, Hbegin, Hcommit. unfold Get. rewrite Hlatest; simpl.
  destruct bc; simpl in *. by subst.
Qed.

End RestartFacts.


(** ** What [FindUTXO] collects *)

Section UTXOFacts.
Context `{BlockScheme}.

Lemma values_heap_app (ps : list nat) (h l : list TXoutput) :
  Forall (λ p, (p < length h)%nat) ps →
  omap (λ p, (h ++ l) !! p) ps = omap (λ p, h !! p) ps.
Proof.
  induction 1 as [|p ps Hp _ IH]; [done|]. cbn.
  by rewrite IH, lookup_app_l.
Qed.

Lemma pointers_valid_app (ps : list nat) (h l : list TXoutput) :
  Forall (λ p, (p < length h)%nat) ps →
  Forall (λ p, (p < length (h ++ l))%nat) ps.
Proof.
  intros Hps. eapply Forall_impl; [exact Hps|]. intros p Hp. simpl in *.
  rewrite length_app. lia.
Qed.

(** One transaction, each iteration with its own variable. *)
Lemma range_outputs_PerIteration addr cell outs r :
  pointers_valid r → NoDup (ptrs r) →
  let r' := range_outputs PerIteration addr cell outs r in
  pointers_valid r' ∧ NoDup (ptrs r') ∧
  values r' = values r ++ filter (λ o, CanBeUnlockedWith o addr) outs.
Proof.
  revert cell r. induction outs as [|o outs IH]; intros cell r Hval Hnd; simpl.
  - by rewrite app_nil_r.
  - set (r1 := {| ptrs := if CanBeUnlockedWith o addr
                          then ptrs r ++ [length (heap r)] else ptrs r;
                  heap := heap r ++ [o] |}).
    assert (Hval1 : pointers_valid r1).
    { unfold pointers_valid, r1; simpl. destruct (CanBeUnlockedWith o addr).
      - apply Forall_app. split; [by apply pointers_valid_app|].
        apply Forall_singleton. rewrite length_app; simpl. lia.
      - by apply pointers_valid_app. }
    assert (Hnd1 : NoDup (ptrs r1)).
    { unfold r1; simpl. destruct (CanBeUnlockedWith o addr); [|done].
      apply NoDup_app. split; [done|]. split; [|apply NoDup_singleton].
      intros p Hp ->%list_elem_of_singleton.
      unfold pointers_valid in Hval. rewrite Forall_forall in Hval.
      specialize (Hval _ Hp). simpl in Hval. lia. }
    assert (Hv1 : values r1
                  = values r ++ (if CanBeUnlockedWith o addr then [o] else [])).
    { unfold values, r1; simpl. destruct (CanBeUnlockedWith o addr).
      - rewrite omap_app, values_heap_app by done. f_equal. cbn.
        by rewrite lookup_app_r, Nat.sub_diag by lia.
      - by rewrite values_heap_app, app_nil_r by done. }
    destruct (IH (Some (length (heap r))) r1 Hval1 Hnd1) as (Hval' & Hnd' & Hv').
    split; [done|]. split; [done|].
    rewrite Hv', Hv1, filter_cons, <- app_assoc.
    destruct (CanBeUnlockedWith o addr); [by rewrite decide_True|].
    rewrite decide_False; [done|]. intros Hf. exact Hf.
Qed.

(** One transaction, one variable for the whole loop: once the variable
    is allocated, each iteration overwrites it. *)
Lemma range_outputs_PerLoop_cell addr outs r h0 x :
  heap r = h0 ++ [x] →
  range_outputs PerLoop addr (Some (length h0)) outs r
  = {| ptrs := ptrs r ++ replicate (length (filter (λ o, CanBeUnlockedWith o addr) outs))
                                   (length h0);
       heap := h0 ++ [default x (last outs)] |}.
Proof.
  revert r x. induction outs as [|o outs IH]; intros r x Hheap; simpl.
  - rewrite app_nil_r, <- Hheap. by destruct r.
  - rewrite (IH _ o); simpl.
    + rewrite filter_cons. f_equal.
      * destruct (CanBeUnlockedWith o addr).
        -- rewrite decide_True by done. simpl. by rewrite <- app_assoc.
        -- rewrite decide_False; [done|]. intros Hf. exact Hf.
      * f_equal. f_equal. rewrite last_cons. by destruct (last outs).
    + rewrite Hheap.
      rewrite insert_app_r_alt, Nat.sub_diag by lia. done.
Qed.

Lemma range_outputs_PerLoop addr outs r :
  pointers_valid r →
  let r' := range_outputs PerLoop addr None outs r in
  pointers_valid r' ∧
  values r'
  = values r ++ match last outs with
                | Some o => replicate (length (filter (λ o, CanBeUnlockedWith o addr) outs)) o
                | None => []
                end.
Proof.
  intros Hval. destruct outs as [|o outs]; simpl.
  - by rewrite app_nil_r.
  - rewrite (range_outputs_PerLoop_cell addr outs _ (heap r) o) by done. simpl.
    set (n := length (filter (λ o0, CanBeUnlockedWith o0 addr) outs)).
    set (v := default o (last outs)).
    assert (Hlast : last (o :: outs) = Some v).
    { rewrite last_cons. unfold v. by destruct (last outs). }
    rewrite Hlast.
    assert (Hrep : ∀ k, omap (λ p, (heap r ++ [v]) !! p) (replicate k (length (heap r)))
                        = replicate k v).
    { induction k as [|k IHk]; [done|]. cbn.
      by rewrite lookup_app_r, Nat.sub_diag, IHk by lia. }
    assert (Hrepv : Forall (λ p, (p < length (heap r ++ [v]))%nat)
                           (replicate n (length (heap r)))).
    { apply Forall_replicate. rewrite length_app; simpl. lia. }
    rewrite filter_cons.
    destruct (CanBeUnlockedWith o addr).
    + rewrite decide_True by done. split.
      * unfold pointers_valid; simpl. apply Forall_app. split; [|done].
        apply Forall_app. split; [by apply pointers_valid_app|].
        apply Forall_singleton. rewrite length_app; simpl. lia.
      * unfold values; simpl. rewrite !omap_app, values_heap_app, Hrep by done.
        cbn. rewrite lookup_app_r, Nat.sub_diag by lia. simpl.
        by rewrite <- app_assoc.
    + rewrite decide_False by (intros Hf; exact Hf). split.
      * unfold pointers_valid; simpl. apply Forall_app. split; [|done].
        by apply pointers_valid_app.
      * unfold values; simpl. by rewrite omap_app, values_heap_app, Hrep by done.
Qed.

Lemma collect_fold_PerIteration addr txs r :
  pointers_valid r → NoDup (ptrs r) →
  let r' := fold_left (λ r tx, range_outputs PerIteration addr None (Out tx) r) txs r in
  pointers_valid r' ∧ NoDup (ptrs r') ∧
  values r' = values r ++ concat (accepted_outputs addr <$> txs).
Proof.
  revert r. induction txs as [|tx txs IH]; intros r Hval Hnd; simpl.
  - by rewrite app_nil_r.
  - destruct (range_outputs_PerIteration addr None (Out tx) r Hval Hnd)
      as (Hval1 & Hnd1 & Hv1).
    destruct (IH _ Hval1 Hnd1) as (Hval' & Hnd' & Hv').
    split; [done|]. split; [done|]. cbn. rewrite Hv', Hv1.
    by rewrite <- app_assoc.
Qed.

Lemma collect_fold_PerLoop addr txs r :
  pointers_valid r →
  let r' := fold_left (λ r tx, range_outputs PerLoop addr None (Out tx) r) txs r in
  pointers_valid r' ∧
  values r' = values r ++ concat (aliased_outputs addr <$> txs).
Proof.
  revert r. induction txs as [|tx txs IH]; intros r Hval; simpl.
  - by rewrite app_nil_r.
  - destruct (range_outputs_PerLoop addr (Out tx) r Hval) as (Hval1 & Hv1).
    destruct (IH _ Hval1) as (Hval' & Hv').
    split; [done|]. cbn. rewrite Hv', Hv1. by rewrite <- app_assoc.
Qed.

(** A pointer is appended exactly for an output the address can unlock,
    whichever way the loop variable is allocated. *)
Lemma range_outputs_ptrs_length sem addr cell outs r :
  length (ptrs (range_outputs sem addr cell outs r))
  = (length (ptrs r) + length (filter (λ o, CanBeUnlockedWith o addr) outs))%nat.
Proof.
  revert cell r. induction outs as [|o outs IH]; intros cell r; simpl; [lia|].
  rewrite filter_cons.
  destruct sem, cell as [p|]; simpl; rewrite IH; simpl;
    (destruct (CanBeUnlockedWith o addr);
     [rewrite decide_True by done; rewrite ?length_app; simpl; lia
     |rewrite decide_False by (intros Hf; exact Hf); lia]).
Qed.

Lemma collect_ptrs_length sem addr txs :
  length (ptrs (collect_outputs sem addr txs))
  = length (concat (accepted_outputs addr <$> txs)).
Proof.
  unfold collect_outputs.
  assert (Hgen : ∀ r,
    length (ptrs (fold_left (λ r tx, range_outputs sem addr None (Out tx) r) txs r))
    = (length (ptrs r) + length (concat (accepted_outputs addr <$> txs)))%nat).
  { induction txs as [|tx txs IH]; intros r; simpl; [lia|].
    rewrite IH, range_outputs_ptrs_length. cbn. rewrite length_app.
    symmetry. apply Nat.add_assoc. }
  by rewrite Hgen.
Qed.

(** X9. With a variable for each iteration (Go 1.22 and later) the
    pointers [FindUTXO] returns are pairwise distinct and point, for each
    entry of the list of [FindUnspendTransaction] in turn, to every output
    of that transaction the address can unlock, in order, spent or not. *)
Theorem collect_outputs_PerIteration addr unspentTxs :
  let r := collect_outputs PerIteration addr unspentTxs in
  NoDup (ptrs r) ∧
  length (values r) = length (ptrs r) ∧
  values r = concat (accepted_outputs addr <$> unspentTxs).
Proof.
  unfold collect_outputs.
  destruct (collect_fold_PerIteration addr unspentTxs {| ptrs := []; heap := [] |})
    as (Hval & Hnd & Hv); [by apply Forall_nil|by apply NoDup_nil|].
  simpl. split; [done|]. split; [|done].
  clear Hv. revert Hval. unfold pointers_valid, values.
  generalize (heap (fold_left (λ r tx, range_outputs PerIteration addr None (Out tx) r)
                              unspentTxs {| ptrs := []; heap := [] |})).
  generalize (ptrs (fold_left (λ r tx, range_outputs PerIteration addr None (Out tx) r)
                              unspentTxs {| ptrs := []; heap := [] |})).
  intros ps h. induction 1 as [|p ps Hp _ IH]; [done|]. cbn.
  destruct (lookup_lt_is_Some_2 h p Hp) as [o Ho]. rewrite Ho. simpl. by rewrite IH.
Qed.

(** X10. With one variable for the whole loop (Go before 1.22) what a
    caller reads through the pointers [FindUTXO] returns is, for each entry
    of the list of [FindUnspendTransaction] in turn, the last output of that
    transaction, once for each output of it the address can unlock. *)
Theorem collect_outputs_PerLoop addr unspentTxs :
  values (collect_outputs PerLoop addr unspentTxs)
  = concat (aliased_outputs addr <$> unspentTxs).
Proof.
  unfold collect_outputs.
  destruct (collect_fold_PerLoop addr unspentTxs {| ptrs := []; heap := [] |})
    as (_ & Hv); [by apply Forall_nil|].
  simpl in Hv. by rewrite Hv.
Qed.

End UTXOFacts.


(** ** What the resolver returns *)

Section ResolverExtras.
Context `{BlockScheme}.

Lemma elem_of_concat {A} (x : A) (ls : list (list A)) :
  x ∈ concat ls ↔ ∃ l, x ∈ l ∧ l ∈ ls.
Proof.
  induction ls as [|l ls IH]; simpl.
  - split; [by intros ?%elem_of_nil|]. by intros (l & _ & ?%elem_of_nil).
  - rewrite elem_of_app, IH. split.
    + intros [Hx|(l' & Hx & Hl')]; [exists l; split; [done|by left]|].
      exists l'. split; [done|by right].
    + intros (l' & Hx & [->|Hl']%elem_of_cons); [by left|]. right. by exists l'.
Qed.

Lemma unspent_walk_sound address seen txs t :
  t ∈ unspent_walk address seen txs →
  t ∈ txs ∧ ∃ o, o ∈ Out t ∧ CanBeUnlockedWith o address = true.
Proof.
  revert seen. induction txs as [|tx txs IH]; intros seen; simpl; [by intros ?%elem_of_nil|].
  rewrite elem_of_app. intros [Ht|Ht].
  - apply elem_of_replicate in Ht as [-> Hn]. split; [by left|].
    destruct (qualifying address (spent_by address (ID tx) seen) (Out tx))
      as [|[k o] q] eqn:Hq; [done|].
    assert (Hin : (k, o) ∈ qualifying address (spent_by address (ID tx) seen) (Out tx))
      by (rewrite Hq; by left).
    apply elem_of_qualifying in Hin as (Hk & _ & Hacc).
    exists o. split; [by eapply list_elem_of_lookup_2|done].
  - destruct (IH _ Ht) as [Hin Ho]. split; [by right|done].
Qed.

(** X11. [FindUnspendTransaction] returns only transactions of the chain
    it walked that have an output the address can unlock; with a variable
    for each iteration, every output [FindUTXO] returns belongs to such a
    transaction and can be unlocked by the address. *)
Theorem resolver_sound fuel env bc address :
  (∀ txs, FindUnspendTransaction fuel env bc address = Ok txs →
     ∃ blocks, IterateBlockchain fuel env bc = Ok blocks ∧
       ∀ t, t ∈ txs →
            t ∈ concat (Transactions <$> blocks) ∧
            ∃ o, o ∈ Out t ∧ CanBeUnlockedWith o address = true) ∧
  (∀ r, FindUTXO PerIteration fuel env bc address = Ok r →
     ∃ blocks, IterateBlockchain fuel env bc = Ok blocks ∧
       ∀ o, o ∈ values r →
            CanBeUnlockedWith o address = true ∧
            ∃ t, t ∈ concat (Transactions <$> blocks) ∧ o ∈ Out t).
Proof.
  pose proof (FindUnspendTransaction_cases fuel env bc address) as Hfind.
  pose proof (FindUTXO_cases PerIteration fuel env bc address) as Hutxo.
  split.
  - intros txs Hret. rewrite Hfind in Hret.
    destruct (IterateBlockchain fuel env bc) as [blocks| |]; [|done|done].
    injection Hret as <-. exists blocks. split; [done|].
    intros t Ht. by apply unspent_walk_sound in Ht.
  - intros r Hret. rewrite Hutxo in Hret.
    destruct (IterateBlockchain fuel env bc) as [blocks| |]; [|done|done].
    injection Hret as <-. exists blocks. split; [done|].
    intros o Ho.
    destruct (collect_fold_PerIteration address
                (unspent_walk address [] (concat (Transactions <$> blocks)))
                {| ptrs := []; heap := [] |}) as (_ & _ & Hv);
      [by apply Forall_nil|by apply NoDup_nil|].
    simpl in Hv. fold (collect_outputs PerIteration address
                         (unspent_walk address [] (concat (Transactions <$> blocks)))) in Hv.
    rewrite Hv in Ho. apply elem_of_concat in Ho as (l & Ho & Hl).
    apply list_elem_of_fmap in Hl as (t & -> & Ht).
    apply list_elem_of_filter in Ho as [Hacc Ho].
    split; [by apply Is_true_true|].
    exists t. split; [|done]. by apply unspent_walk_sound in Ht as [? _].
Qed.

(** X12. On a chain none of whose outputs the address can unlock, both
    operations return the empty list. *)
Theorem resolver_empty sem fuel env bc address blocks :
  IterateBlockchain fuel env bc = Ok blocks →
  (∀ tx o, tx ∈ concat (Transactions <$> blocks) → o ∈ Out tx →
           CanBeUnlockedWith o address = false) →
  FindUnspendTransaction fuel env bc address = Ok [] ∧
  FindUTXO sem fuel env bc address = Ok {| ptrs := []; heap := [] |}.
Proof.
  intros Hwalk Hnone.
  rewrite FindUnspendTransaction_cases, FindUTXO_cases.
  rewrite Hwalk, unspent_walk_rejected; [done|].
  apply Forall_forall. intros tx Htx o Ho. by apply (Hnone tx).
Qed.

(** X13. A transaction that is the only one of the chain paying the
    address, with [k] outputs the address can unlock, none of them spent,
    is listed [k] times, and [FindUTXO] returns [k * k] pointers for it:
    with a variable for each iteration, [k] times the [k] outputs; with
    one variable for the loop, [k * k] times the last output of the
    transaction, whoever can unlock it. *)
Theorem unspent_outputs_counted_k_times sem fuel env bc address blocks pre T1 post (k : nat) :
  IterateBlockchain fuel env bc = Ok blocks →
  concat (Transactions <$> blocks) = pre ++ T1 :: post →
  Forall (λ tx, ∀ o, o ∈ Out tx → CanBeUnlockedWith o address = false) (pre ++ post) →
  length (accepted_outputs address T1) = k →
  (∀ (i : nat) o, Out T1 !! i = Some o → CanBeUnlockedWith o address = true →
            Z.of_nat i ∉ spent_by address (ID T1) pre) →
  FindUnspendTransaction fuel env bc address = Ok (replicate k T1) ∧
  ∃ r, FindUTXO sem fuel env bc address = Ok r ∧
       length (values r) = (k * k)%nat ∧
       values r = match sem with
                  | PerIteration => concat (replicate k (accepted_outputs address T1))
                  | PerLoop => concat (replicate k (aliased_outputs address T1))
                  end ∧
       length (ptrs r) = (k * k)%nat.
Proof.
  intros Hwalk Hcat Hothers Hk Hfree.
  apply Forall_app in Hothers as [Hpre Hpost].
  rewrite FindUnspendTransaction_cases, FindUTXO_cases.
  rewrite Hwalk, Hcat, unspent_walk_app, (unspent_walk_rejected _ _ pre) by done.
  simpl. rewrite (unspent_walk_rejected _ _ post), app_nil_r by done.
  rewrite (qualifying_unspent_length _ _ _ Hfree).
  fold (accepted_outputs address T1). rewrite Hk.
  split; [done|]. eexists. split; [done|].
  assert (Hlen : ∀ (l : list TXoutput) (n : nat),
            length (concat (replicate n l)) = (n * length l)%nat).
  { intros l n. induction n as [|n IH]; [done|]. simpl. rewrite length_app, IH. lia. }
  assert (Hptrs : length (ptrs (collect_outputs sem address (replicate k T1)))
                  = (k * k)%nat).
  { by rewrite collect_ptrs_length, fmap_replicate, Hlen, Hk. }
  destruct sem.
  - destruct (collect_fold_PerLoop address (replicate k T1) {| ptrs := []; heap := [] |})
      as (_ & Hv); [by apply Forall_nil|].
    unfold collect_outputs at 1 2. simpl in Hv. rewrite Hv, fmap_replicate.
    split; [|by split].
    rewrite Hlen. f_equal. unfold aliased_outputs.
    destruct (last (Out T1)) as [o|] eqn:Hlast.
    + by rewrite length_replicate.
    + apply last_None in Hlast. unfold accepted_outputs in Hk.
      rewrite Hlast in Hk. by subst.
  - destruct (collect_fold_PerIteration address (replicate k T1)
                {| ptrs := []; heap := [] |}) as (_ & _ & Hv);
      [by apply Forall_nil|by apply NoDup_nil|].
    unfold collect_outputs at 1 2. simpl in Hv. rewrite Hv, fmap_replicate.
    split; [|by split]. by rewrite Hlen, Hk.
Qed.

End ResolverExtras.


(** ** Past the genesis block, and what counts as spent *)

Section PastGenesis.
Context `{BlockLaws}.

Lemma stored_chain_advance env (bucket : gmap string string) h blocks :
  view_err env = false →
  stored_chain bucket h blocks →
  advance (length blocks) env {| currentHash := h; bit_db := Some bucket |}
  = Ok {| currentHash := ""; bit_db := Some bucket |}.
Proof.
  intros Hview. revert h. induction blocks as [|b rest IH]; intros h; [done|].
  intros (Hh & _ & _ & Hlook & Hrest). simpl.
  rewrite (Next_stored env bucket h b Hview Hlook).
  destruct rest as [|b' rest']; [by rewrite Hrest|].
  destruct Hrest as [_ Hrest]. by apply IH.
Qed.

Lemma Built_no_empty_key (n : nat) bc blocks bucket :
  Built n bc blocks → db bc = Some bucket → bucket !! "" = None.
Proof.
  intros Hbuilt. revert bucket.
  induction Hbuilt as [env bc Hcreate Hne|env n bc blocks txs bc' _ IH Happ];
    intros bucket Hdb.
  - apply CreateBlockchain_fresh_Ok in Hcreate as (_ & _ & _ & (Hh & _) & ->).
    simpl in Hdb. injection Hdb as <-.
    by rewrite !lookup_insert_ne by done.
  - destruct Happ as (Hret & Hbegin & Hcommit & b & Hb & _).
    apply AddBlock_Ok in Hret
      as (_ & _ & b' & Hb' & [[? _]|(_ & Hne & _ & Hst)]); [congruence|].
    assert (b' = b) as -> by congruence.
    rewrite Hcommit, Hdb in Hst. injection Hst as ->.
    rewrite !lookup_insert_ne by done. by apply IH.
Qed.

(** X14. On a ledger built from genesis by [n] committed [AddBlock]
    calls, [n + 1] calls of [Next] leave the cursor empty, and what one
    more call does is what the codec does with the empty byte string, since
    the store holds nothing under the empty key: it panics when the codec
    rejects it. *)
Theorem Next_past_genesis (n : nat) bc blocks env :
  Built n bc blocks →
  view_err env = false →
  ∃ bit,
    advance (S n) env (Iterator bc) = Ok bit ∧
    currentHash bit = "" ∧
    Next env bit
    = match Deserialize "" with
      | Some b => Ok (b, {| currentHash := PrevBlockHash b; bit_db := db bc |})
      | None => Panic
      end.
Proof.
  intros Hbuilt Hview.
  destruct (Built_stored _ _ _ Hbuilt) as (bucket & Hdb & _ & Hchain & Hlen & _).
  exists {| currentHash := ""; bit_db := Some bucket |}.
  split; [|split; [done|]].
  - unfold Iterator. rewrite Hdb, <- Hlen. by apply stored_chain_advance.
  - unfold Next, View, Next_fn, Get; simpl.
    rewrite Hview, (Built_no_empty_key _ _ _ _ Hbuilt Hdb), Hdb; simpl.
    by destruct (Deserialize "").
Qed.

End PastGenesis.

Section SpentFacts.
Context `{BlockScheme}.

Lemma elem_of_spent_by address id seen (k : Z) :
  k ∈ spent_by address id seen
  ↔ ∃ t i, t ∈ seen ∧ IsCoinbase t = false ∧ i ∈ In t ∧
           CanUnlockOutputWith i address = true ∧ TXid i = id ∧ Voutindex i = k.
Proof.
  unfold spent_by. rewrite elem_of_concat. split.
  - intros (l & Hk & Hl). apply list_elem_of_fmap in Hl as (t & -> & Ht).
    unfold spends in Hk. destruct (IsCoinbase t) eqn:Hcb; [by apply elem_of_nil in Hk|].
    apply list_elem_of_fmap in Hk as (i & -> & Hi).
    apply list_elem_of_filter in Hi as [[Hacc Hid] Hi].
    exists t, i. split; [done|]. split; [done|]. split; [done|].
    split; [by apply Is_true_true|]. by split.
  - intros (t & i & Ht & Hcb & Hi & Hacc & Hid & Hk).
    exists (spends address id t). split; [|by apply list_elem_of_fmap_2].
    unfold spends. rewrite Hcb, <- Hk. apply list_elem_of_fmap_2.
    apply list_elem_of_filter. split; [split; [by apply Is_true_true|done]|done].
Qed.

(** X15. When the walk has scanned the transactions [seen], output [k]
    of transaction [id] is skipped as spent exactly when some transaction
    among [seen] that is not coinbase has an input that the address
    unlocks and that refers to ([id], [k]): an input the address does not
    unlock, and an input of a coinbase transaction, hide nothing. *)
Theorem skipped_exactly_when_spent address seen id (k : nat) :
  is_spent (fold_left (scan_tx address) seen ([], ∅)).2 id (Z.of_nat k) = true
  ↔ ∃ t i, t ∈ seen ∧ IsCoinbase t = false ∧ i ∈ In t ∧
           CanUnlockOutputWith i address = true ∧ TXid i = id ∧
           Voutindex i = Z.of_nat k.
Proof.
  rewrite is_spent_spec, scan_txs_spent; simpl.
  rewrite bool_decide_eq_true. apply elem_of_spent_by.
Qed.

End SpentFacts.


(** ** The program run on the concrete instance *)

Module DemoFacts.
Import Demo.

Lemma bits_to_pos_to_bits p : bits_to_pos (pos_to_bits p) = p.
Proof. induction p as [p IH|p IH|]; simpl; by rewrite ?IH. Qed.

Lemma tuple_tx_tuple t : tuple_tx (tx_tuple t) = t.
Proof. by destruct t. Qed.

Lemma tuple_block_tuple b : tuple_block (block_tuple b) = b.
Proof.
  destruct b as [h p txs]. unfold tuple_block, block_tuple; simpl. f_equal.
  induction txs as [|t txs IH]; [done|].
  cbn. f_equal; [apply tuple_tx_tuple|exact IH].
Qed.

Lemma deserialize_serialize b : deserialize (serialize b) = Some b.
Proof.
  unfold deserialize, serialize.
  by rewrite bits_to_pos_to_bits, decode_encode; simpl; rewrite tuple_block_tuple.
Qed.

#[export] Instance laws : BlockLaws.
Proof. split; [done|done|exact deserialize_serialize]. Qed.

(** Alice's reward is spent in favour of bob: nothing is left for alice,
    bob holds the output of the spending transaction. *)
Lemma spent_output_leaves_utxo_witness :
  ∃ rA rB,
    FindUTXO PerLoop 2 healthy ledger_spent "alice" = Ok rA ∧ values rA = [] ∧
    FindUTXO PerLoop 2 healthy ledger_spent "bob" = Ok rB ∧
    values rB = [ {| Value := 10; ScriptPubKey := "bob" |} ].
Proof.
  apply (spent_output_leaves_utxo PerLoop 2 healthy ledger_spent "alice" "bob"
           [new_block "genesis" [t2]; genesis]
           [] t2 [] (coinbase "cb0" "alice") []
           {| Value := 10; ScriptPubKey := "alice" |} []
           {| txid := "cb0"; vout := 0; ScriptSig := "alice" |}
           {| Value := 10; ScriptPubKey := "bob" |}).
  - vm_compute. reflexivity.
  - reflexivity.
  - constructor.
  - reflexivity.
  - reflexivity.
  - intros o Ho. by apply elem_of_nil in Ho.
  - intros o Ho. apply list_elem_of_singleton in Ho. by subst.
  - reflexivity.
  - apply list_elem_of_singleton. reflexivity.
  - reflexivity.
  - reflexivity.
  - reflexivity.
  - reflexivity.
  - reflexivity.
  - reflexivity.
  - apply not_elem_of_nil.
Defined.

Lemma two_unspent_outputs_listed_twice_witness :
  ∃ before after,
    FindUnspendTransaction 2 healthy ledger_split "carol"
    = Ok (before ++ [split_reward "t1" "carol"; split_reward "t1" "carol"] ++ after) ∧
    (∀ t, t ∈ before → t ∈ []) ∧ (∀ t, t ∈ after → t ∈ [coinbase "cb0" "alice"]).
Proof.
  apply (two_unspent_outputs_listed_twice 2 healthy ledger_split "carol"
           [new_block "genesis" [split_reward "t1" "carol"]; genesis]
           [] (split_reward "t1" "carol") [coinbase "cb0" "alice"]).
  - vm_compute. reflexivity.
  - reflexivity.
  - reflexivity.
  - intros k o _ _. apply not_elem_of_nil.
Defined.

Lemma outputs_scanned_before_own_inputs_witness :
  let st := fold_left (scan_tx "carol") [t3] ([], ∅) in
  (∀ id, default [] (st.2 !! id) = spent_by "carol" id [t3]) ∧
  (scan_tx "carol" st (split_reward "t1" "carol")).1
  = st.1 ++ replicate
              (length (qualifying "carol" (spent_by "carol" "t1" [t3])
                                  (Out (split_reward "t1" "carol"))))
              (split_reward "t1" "carol") ∧
  (∀ (k : nat) o, Out (split_reward "t1" "carol") !! k = Some o →
            CanBeUnlockedWith o "carol" = true →
            Z.of_nat k ∉ spent_by "carol" "t1" [t3] →
            split_reward "t1" "carol" ∈ (scan_tx "carol" st (split_reward "t1" "carol")).1) ∧
  (∀ id, default [] ((scan_tx "carol" st (split_reward "t1" "carol")).2 !! id)
         = spent_by "carol" id [t3] ++ spends "carol" id (split_reward "t1" "carol")) ∧
  FindUnspendTransaction 3 healthy ledger_split_spent "carol"
  = Ok (fold_left (scan_tx "carol") [coinbase "cb0" "alice"]
                  (scan_tx "carol" st (split_reward "t1" "carol"))).1.
Proof.
  apply (outputs_scanned_before_own_inputs 3 healthy ledger_split_spent "carol"
           [new_block "#genesist1" [t3];
            new_block "genesis" [split_reward "t1" "carol"];
            genesis]).
  - vm_compute. reflexivity.
  - reflexivity.
Defined.


(** C1. A spend in the same block is missed.  The transactions of a
    block are scanned in their stored order, so when the spending
    transaction follows, in the same block, the transaction it spends
    from, the output is tested before the input that spends it is
    recorded: on the chain whose newest block holds t1 (one output, to
    carol) followed by t3 (an ordinary transaction with an input on
    (t1, 0) that carol unlocks, paying bob), [FindUnspendTransaction]
    lists t1 for carol and [FindUTXO] returns the spent output for carol,
    under both loop-variable semantics, where the empty list is due;
    bob's output is returned as it should. *)
Theorem FindUTXO_misses_spend_in_same_block :
  IterateBlockchain 2 healthy ledger_same_block
  = Ok [new_block "genesis" [coinbase "t1" "carol"; t3]; genesis] ∧
  Out (coinbase "t1" "carol") = [ {| Value := 10; ScriptPubKey := "carol" |} ] ∧
  In t3 = [ {| txid := "t1"; vout := 0; ScriptSig := "carol" |} ] ∧
  Out t3 = [ {| Value := 10; ScriptPubKey := "bob" |} ] ∧
  IsCoinbase t3 = false ∧
  FindUnspendTransaction 2 healthy ledger_same_block "carol" = Ok [coinbase "t1" "carol"] ∧
  (∀ sem, ∃ r, FindUTXO sem 2 healthy ledger_same_block "carol" = Ok r ∧
               values r = [ {| Value := 10; ScriptPubKey := "carol" |} ]) ∧
  (∀ sem, ∃ r, FindUTXO sem 2 healthy ledger_same_block "bob" = Ok r ∧
               values r = [ {| Value := 10; ScriptPubKey := "bob" |} ]).
Proof.
  split; [by vm_compute|]. split; [done|]. split; [done|]. split; [done|].
  split; [done|]. split; [by vm_compute|].
  split; intros [|]; eexists; (split; [by vm_compute|]); by vm_compute.
Qed.

(** C2. [FindUTXO] does not return exactly the unspent output: on the
    chain where carol receives two outputs in transaction t1 and spends
    output 0 in favour of bob, [FindUnspendTransaction] lists t1 once (for
    output 1), and [FindUTXO] then returns two pointers: to the spent
    output 0 and to output 1 when each iteration has its own variable, and
    twice to one variable holding output 1 when the loop has a single
    variable. *)
Theorem FindUTXO_returns_spent_output :
  IterateBlockchain 3 healthy ledger_split_spent
  = Ok [new_block "#genesist1" [t3]; new_block "genesis" [split_reward "t1" "carol"]; genesis] ∧
  Out (split_reward "t1" "carol") = [O0; O1] ∧
  spent_by "carol" "t1" [t3] = [0%Z] ∧
  FindUnspendTransaction 3 healthy ledger_split_spent "carol" = Ok [split_reward "t1" "carol"] ∧
  (∃ r, FindUTXO PerIteration 3 healthy ledger_split_spent "carol" = Ok r ∧
        ptrs r = [0; 1] ∧ values r = [O0; O1]) ∧
  (∃ r, FindUTXO PerLoop 3 healthy ledger_split_spent "carol" = Ok r ∧
        ptrs r = [0; 0] ∧ values r = [O1; O1]).
Proof.
  split; [by vm_compute|]. split; [done|]. split; [by vm_compute|].
  split; [by vm_compute|]. split; eexists; (split; [by vm_compute|]); by vm_compute.
Qed.

(** C3. [AddBlock] sets the in-memory head before the write transaction
    is committed and keeps it when the commit fails: on the bootstrapped
    ledger, with a commit that fails, the call returns [true], the store is
    what it was, with the reserved key still on the genesis hash, and the
    in-memory head is the hash of a block that is not in the store, so the
    next walk from the head panics. *)
Theorem AddBlock_moves_head_without_commit :
  let r := AddBlock commit_fails ledger0 [t2] in
  r.1 = Ok true ∧
  db r.2 = db ledger0 ∧
  (∃ bucket, db r.2 = Some bucket ∧ Get bucket latest = "genesis" ∧
             bucket !! topHash r.2 = None) ∧
  topHash ledger0 = "genesis" ∧
  topHash r.2 = "#genesist2" ∧
  Next healthy (Iterator r.2) = Panic.
Proof.
  split; [by vm_compute|]. split; [by vm_compute|].
  split; [eexists; split; [by vm_compute|]; split; by vm_compute|].
  split; [by vm_compute|]. split; by vm_compute.
Qed.

Lemma ledger0_db : db ledger0 = Some bucket0.
Proof. by vm_compute. Qed.

Lemma storable_t2 : storable (NewBlock (Get bucket0 latest) [t2]).
Proof. split; [by vm_compute|]. split; by vm_compute. Qed.

Lemma AddBlock_never_reports_write_failure_witness :
  AddBlock commit_fails ledger0 [t2]
  = (Ok true, {| topHash := Hash (NewBlock (Get bucket0 latest) [t2]); db := db ledger0 |}).
Proof.
  apply (AddBlock_never_reports_write_failure commit_fails ledger0 [t2]).
  - reflexivity.
  - reflexivity.
  - reflexivity.
  - by vm_compute.
  - split; [by vm_compute|]. split; by vm_compute.
Defined.

(** The stale in-memory head plays no part: both ledgers build the block
    on the stored head. *)
Lemma parent_hash_read_from_store_witness :
  let newBlock := NewBlock (Get bucket0 latest) [t2] in
  let stored := Some (<[latest := Hash newBlock]>
                        (<[Hash newBlock := Serialize newBlock]> bucket0)) in
  (AddBlock healthy ledger0 [t2]).1 = (AddBlock healthy ledger_stale [t2]).1 ∧
  AddBlock healthy ledger0 [t2] = (Ok true, {| topHash := Hash newBlock; db := stored |}) ∧
  AddBlock healthy ledger_stale [t2] = (Ok true, {| topHash := Hash newBlock; db := stored |}) ∧
  PrevBlockHash newBlock = "genesis" ∧
  topHash ledger0 = "genesis" ∧
  topHash ledger_stale = "stale".
Proof.
  destruct (parent_hash_read_from_store healthy ledger0 ledger_stale [t2] bucket0 bucket0
              ledger0_db eq_refl eq_refl) as [Hsame Hrun].
  destruct (Hrun eq_refl eq_refl storable_t2) as [Hrun1 Hrun2].
  split; [exact Hsame|]. split; [exact Hrun1|]. split; [exact Hrun2|].
  split; [by vm_compute|]. split; by vm_compute.
Defined.


Lemma walk_returns_whole_chain_witness :
  let blocks := [NewBlock (topHash ledger0) [t2]; GenesisBlock] in
  IterateBlockchain 2 healthy ledger_spent = Ok blocks ∧
  length blocks = 2 ∧
  NoDup (Hash <$> blocks) ∧
  (∀ i b b', blocks !! i = Some b → blocks !! S i = Some b' → PrevBlockHash b = Hash b') ∧
  (∀ i b, blocks !! i = Some b → PrevBlockHash b = "" ↔ i = 1).
Proof.
  apply (walk_returns_whole_chain 1 ledger_spent
           [NewBlock (topHash ledger0) [t2]; GenesisBlock] healthy 2).
  - apply (Built_append healthy 0 ledger0 [GenesisBlock] [t2] ledger_spent).
    + apply (Built_genesis healthy ledger0); by vm_compute.
    + split; [by vm_compute|]. split; [reflexivity|]. split; [reflexivity|].
      exists bucket0. split; by vm_compute.
  - reflexivity.
  - lia.
Defined.

End DemoFacts.


Module DemoExtras.
Import Demo DemoFacts.

Lemma walk_shape_witness :
  let blocks := [NewBlock (topHash ledger0) [t2]; GenesisBlock] in
  (0 < length blocks ≤ 2)%nat ∧
  (∃ bucket, db ledger_spent = Some bucket ∧
     (∀ b, blocks !! 0%nat = Some b →
           Deserialize (Get bucket (topHash ledger_spent)) = Some b) ∧
     (∀ (i : nat) b b', blocks !! i = Some b → blocks !! S i = Some b' →
                Deserialize (Get bucket (PrevBlockHash b)) = Some b')) ∧
  (∀ (i : nat) b, blocks !! i = Some b → PrevBlockHash b = "" ↔ S i = length blocks) ∧
  (∀ fuel' : nat, (2 ≤ fuel')%nat → IterateBlockchain fuel' healthy ledger_spent = Ok blocks).
Proof.
  apply (walk_shape 2 healthy ledger_spent [NewBlock (topHash ledger0) [t2]; GenesisBlock]).
  by vm_compute.
Defined.

Lemma walk_self_cycle_never_returns_witness :
  IterateBlockchain 5 healthy ledger_cycle = OutOfFuel.
Proof.
  apply (walk_self_cycle_never_returns 5 healthy ledger_cycle bucket_cycle self_block).
  - reflexivity.
  - reflexivity.
  - by vm_compute.
  - reflexivity.
  - by vm_compute.
Defined.

Lemma CreateBlockchain_fresh_witness :
  let bucket : gmap string string :=
    <[latest := Hash GenesisBlock]> (<[Hash GenesisBlock := Serialize GenesisBlock]> ∅) in
  CreateBlockchain healthy None = Ok {| topHash := Hash GenesisBlock; db := Some bucket |} ∧
  size bucket = 2 ∧
  bucket !! Hash GenesisBlock = Some (Serialize GenesisBlock) ∧
  bucket !! latest = Some (Hash GenesisBlock).
Proof.
  destruct (CreateBlockchain_fresh healthy
              {| topHash := Hash GenesisBlock;
                 db := Some (<[latest := Hash GenesisBlock]>
                               (<[Hash GenesisBlock := Serialize GenesisBlock]> ∅)) |})
    as (Hiff & _ & Htwo & _).
  split.
  - apply Hiff.
    split; [reflexivity|]. split; [reflexivity|]. split; [reflexivity|].
    split; [|reflexivity].
    split; [by vm_compute|]. split; by vm_compute.
  - apply Htwo. by vm_compute.
Defined.

Lemma CreateBlockchain_reopen_witness :
  CreateBlockchain healthy (Some bucket0)
  = Ok {| topHash := Get bucket0 latest; db := Some bucket0 |}.
Proof.
  apply (proj2 (proj1 (CreateBlockchain_reopen healthy bucket0 _))).
  split; [reflexivity|]. split; [reflexivity|]. split; reflexivity.
Defined.

Lemma AddBlock_panics_witness :
  AddBlock healthy {| topHash := "genesis"; db := None |} [t2]
  = (Panic, {| topHash := "genesis"; db := None |}).
Proof.
  apply (proj2 (AddBlock_panics healthy {| topHash := "genesis"; db := None |} [t2] _)).
  split; [reflexivity|]. right. left. reflexivity.
Defined.

Lemma AddBlock_keeps_entries_witness :
  ∃ bucket', db (AddBlock healthy ledger0 [t2]).2 = Some bucket' ∧
    dom bucket0 ⊆ dom bucket' ∧
    ∀ k, k ≠ latest → k ≠ Hash (NewBlock (Get bucket0 latest) [t2]) →
         bucket' !! k = bucket0 !! k.
Proof.
  apply (proj2 (AddBlock_keeps_entries healthy ledger0 [t2]) bucket0).
  by vm_compute.
Defined.

Lemma built_head_survives_restart_witness :
  ∃ bucket newest,
    [NewBlock (topHash ledger0) [t2]; GenesisBlock] !! 0%nat = Some newest ∧
    GetTopHash ledger_spent = Hash newest ∧
    head_stored ledger_spent bucket newest ∧
    CreateBlockchain healthy (db ledger_spent) = Ok ledger_spent.
Proof.
  apply (built_head_survives_restart 1 ledger_spent
           [NewBlock (topHash ledger0) [t2]; GenesisBlock] healthy).
  - apply (Built_append healthy 0 ledger0 [GenesisBlock] [t2] ledger_spent).
    + apply (Built_genesis healthy ledger0); by vm_compute.
    + split; [by vm_compute|]. split; [reflexivity|]. split; [reflexivity|].
      exists bucket0. split; by vm_compute.
  - reflexivity.
  - reflexivity.
  - reflexivity.
Defined.

Lemma resolver_sound_witness :
  ∃ blocks, IterateBlockchain 2 healthy ledger_spent = Ok blocks ∧
    ∀ t, t ∈ [t2] →
         t ∈ concat (Transactions <$> blocks) ∧
         ∃ o, o ∈ Out t ∧ CanBeUnlockedWith o "bob" = true.
Proof.
  apply (proj1 (resolver_sound 2 healthy ledger_spent "bob") [t2]).
  by vm_compute.
Defined.

Lemma resolver_empty_witness :
  FindUnspendTransaction 2 healthy ledger_spent "zoe" = Ok [] ∧
  FindUTXO PerLoop 2 healthy ledger_spent "zoe" = Ok {| ptrs := []; heap := [] |}.
Proof.
  apply (resolver_empty PerLoop 2 healthy ledger_spent "zoe"
           [NewBlock (topHash ledger0) [t2]; GenesisBlock]).
  - by vm_compute.
  - intros tx o Htx Ho.
    assert (Hall : Forall (λ tx, Forall (λ o, CanBeUnlockedWith o "zoe" = false) (Out tx))
                          (concat (Transactions <$>
                                     [NewBlock (topHash ledger0) [t2]; GenesisBlock]))).
    { repeat constructor. }
    rewrite Forall_forall in Hall. specialize (Hall tx Htx).
    rewrite Forall_forall in Hall. by apply Hall.
Defined.

Lemma unspent_outputs_counted_k_times_witness :
  FindUnspendTransaction 2 healthy ledger_split "carol"
  = Ok (replicate 2 (split_reward "t1" "carol")) ∧
  ∃ r, FindUTXO PerLoop 2 healthy ledger_split "carol" = Ok r ∧
       length (values r) = (2 * 2)%nat ∧
       values r = concat (replicate 2 (aliased_outputs "carol" (split_reward "t1" "carol"))) ∧
       length (ptrs r) = (2 * 2)%nat.
Proof.
  apply (unspent_outputs_counted_k_times PerLoop 2 healthy ledger_split "carol"
           [new_block "genesis" [split_reward "t1" "carol"]; genesis]
           [] (split_reward "t1" "carol") [coinbase "cb0" "alice"] 2).
  - by vm_compute.
  - reflexivity.
  - repeat constructor. intros o Ho. apply list_elem_of_singleton in Ho. by subst.
  - reflexivity.
  - intros i o _ _. apply not_elem_of_nil.
Defined.

Lemma Next_past_genesis_witness :
  ∃ bit,
    advance 2 healthy (Iterator ledger_spent) = Ok bit ∧
    currentHash bit = "" ∧
    Next healthy bit
    = match Deserialize "" with
      | Some b => Ok (b, {| currentHash := PrevBlockHash b; bit_db := db ledger_spent |})
      | None => Panic
      end.
Proof.
  apply (Next_past_genesis 1 ledger_spent
           [NewBlock (topHash ledger0) [t2]; GenesisBlock] healthy).
  - apply (Built_append healthy 0 ledger0 [GenesisBlock] [t2] ledger_spent).
    + apply (Built_genesis healthy ledger0); by vm_compute.
    + split; [by vm_compute|]. split; [reflexivity|]. split; [reflexivity|].
      exists bucket0. split; by vm_compute.
  - reflexivity.
Defined.

Lemma skipped_exactly_when_spent_witness :
  is_spent (fold_left (scan_tx "carol") [t3] ([], ∅)).2 "t1" (Z.of_nat 0) = true.
Proof.
  apply (proj2 (skipped_exactly_when_spent "carol" [t3] "t1" 0)).
  exists t3, {| txid := "t1"; vout := 0; ScriptSig := "carol" |}.
  split; [apply list_elem_of_singleton; reflexivity|].
  split; [reflexivity|].
  split; [apply list_elem_of_singleton; reflexivity|].
  split; [reflexivity|]. split; reflexivity.
Defined.

End DemoExtras.
